(** * wifi-car: the UDP remote-control bridge of [rasberry_pi_4_wifi_car_en.py]

    A shallow embedding of the receiver script (Pico W -> Raspberry Pi 4 ->
    L293D + servo) and the properties of its decoder, its input shaping and
    its failsafe loop.

    Modelling conventions.
    - Python [int] is [Z].
    - Python [float] is the field of rationals [Q] with exact arithmetic:
      the rounding and the finite range of binary64 are not part of the
      model ([loop_reading_bound] shows that the integers the loop converts
      stay inside that range).  Equality of floats is [Qeq].
    - [bytes] is [list byte]; [str] is a list of Unicode code points.
    - The [pigpio.pi] handle is the chronological list of the calls made on
      it; the state of a line is the argument of the last call that set it.
    - [time.time()] and [sock.recvfrom] are inputs: one loop iteration
      consumes one [tick] that carries what they returned. *)

From Stdlib Require Import ZArith NArith QArith Qabs Qpower Lqa Lia.
From Stdlib Require Import Decimal DecimalPos.
From Stdlib Require Import List Bool Strings.Byte Strings.String.
Import ListNotations.

Local Open Scope Z_scope.

(** ** Floats *)

Definition float := Q.

(** [a < b] on floats, as a boolean. *)
Definition float_lt (a b : float) : bool := negb (Qle_bool b a).

(** The builtins [min(a, b)] and [max(a, b)]: the first argument is kept
    unless the second one is strictly better. *)
Definition py_min (a b : float) : float := if float_lt b a then b else a.
Definition py_max (a b : float) : float := if float_lt a b then b else a.

(** [int(q)] on a float: truncation towards zero. *)
Definition int_of_float (q : float) : Z := Z.quot (Qnum q) (Zpos (Qden q)).

(** ** User configuration (defaults) *)

Definition UDP_PORT : Z := 5005.
Definition DEADZONE : float := (8 # 100)%Q.
Definition BASE_SPEED : float := (60 # 100)%Q.
Definition TURBO_SPEED : float := 1%Q.
Definition EXPO : float := (6 # 10)%Q.
Definition PWM_FREQ : Z := 20000.
Definition FAILSAFE_SEC : float := (5 # 10)%Q.
Definition VERBOSE_LOG : bool := false.

(** L293D pin mapping (BCM numbering) and the servo pin. *)
Definition EN_L : Z := 12.
Definition IN1_L : Z := 5.
Definition IN2_L : Z := 6.
Definition EN_R : Z := 13.
Definition IN1_R : Z := 23.
Definition IN2_R : Z := 24.
Definition SERVO_PIN : Z := 18.

(** ** Utilities *)

(** Map 0..65535 -> -1..+1 (center 0), applying deadzone around 0. *)
Definition adc_to_unit (v : Z) (deadzone : float) : float :=
  let u := ((inject_Z v / 65535) * 2 - 1)%Q in
  if float_lt (Qabs u) deadzone then 0%Q else py_max (-1)%Q (py_min 1%Q u).

(** Mix of the linear and the cubic response. *)
Definition apply_expo (u k : float) : float :=
  ((1 - k) * u + k * u ^ 3)%Q.

(** ** The GPIO backend *)

Module pigpio.

Inductive call : Type :=
| Set_mode (gpio : Z)
| Write (gpio level : Z)
| Set_PWM_frequency (gpio frequency : Z)
| Set_PWM_dutycycle (gpio dutycycle : Z)
| Set_servo_pulsewidth (gpio pulsewidth : Z)
| Stop.

(** The handle: every call made so far, oldest first. *)
Definition pi := list call.

Definition set_mode (p : pi) (gpio : Z) : pi := p ++ [Set_mode gpio].
Definition write (p : pi) (gpio level : Z) : pi := p ++ [Write gpio level].
Definition set_PWM_frequency (p : pi) (gpio f : Z) : pi :=
  p ++ [Set_PWM_frequency gpio f].
Definition set_PWM_dutycycle (p : pi) (gpio d : Z) : pi :=
  p ++ [Set_PWM_dutycycle gpio d].
Definition set_servo_pulsewidth (p : pi) (gpio w : Z) : pi :=
  p ++ [Set_servo_pulsewidth gpio w].
Definition stop (p : pi) : pi := p ++ [Stop].

(** What a call leaves on a line, given what was there before. *)
Definition level_after (gpio : Z) (old : option Z) (c : call) : option Z :=
  match c with
  | Write g v => if g =? gpio then Some v else old
  | _ => old
  end.

Definition dutycycle_after (gpio : Z) (old : option Z) (c : call)
  : option Z :=
  match c with
  | Set_PWM_dutycycle g d => if g =? gpio then Some d else old
  | _ => old
  end.

Definition pulsewidth_after (gpio : Z) (old : option Z) (c : call)
  : option Z :=
  match c with
  | Set_servo_pulsewidth g w => if g =? gpio then Some w else old
  | _ => old
  end.

(** The observers: the value last put on a line, [None] if never set. *)
Definition read (p : pi) (gpio : Z) : option Z :=
  fold_left (level_after gpio) p None.
Definition get_PWM_dutycycle (p : pi) (gpio : Z) : option Z :=
  fold_left (dutycycle_after gpio) p None.
Definition get_servo_pulsewidth (p : pi) (gpio : Z) : option Z :=
  fold_left (pulsewidth_after gpio) p None.

End pigpio.

(** ** Actuator commands *)

(** Command motor with value in [-1..+1].
    Positive: forward, Negative: reverse, Zero: coast (inputs LOW, PWM=0). *)
Definition set_motor (pi : pigpio.pi) (dir_a dir_b en : Z) (val : float)
  : pigpio.pi :=
  let val := py_max (-1)%Q (py_min 1%Q val) in
  let pi :=
    if float_lt 0%Q val then
      pigpio.write (pigpio.write pi dir_a 1) dir_b 0
    else if float_lt val 0%Q then
      pigpio.write (pigpio.write pi dir_a 0) dir_b 1
    else
      pigpio.write (pigpio.write pi dir_a 0) dir_b 0 in
  pigpio.set_PWM_dutycycle pi en (int_of_float (Qabs val * 255)%Q).

(** Active braking: both inputs HIGH, PWM 0. *)
Definition brake (pi : pigpio.pi) (dir_a dir_b en : Z) : pigpio.pi :=
  let pi := pigpio.write pi dir_a 1 in
  let pi := pigpio.write pi dir_b 1 in
  pigpio.set_PWM_dutycycle pi en 0.

(** Map x in [-1..+1] to servo pulse width 500..2500 us. *)
Definition servo_pulse (x : float) : Z :=
  let us := int_of_float (1500 + x * 1000)%Q in
  Z.max 500 (Z.min 2500 us).

Definition servo_from_x (pi : pigpio.pi) (x : float) (pin : Z) : pigpio.pi :=
  pigpio.set_servo_pulsewidth pi pin (servo_pulse x).

Definition stop_all (pi : pigpio.pi) : pigpio.pi :=
  let pi := brake pi IN1_L IN2_L EN_L in
  let pi := brake pi IN1_R IN2_R EN_R in
  pigpio.set_servo_pulsewidth pi SERVO_PIN 1500.

(** ** Text *)

(** A [str]: its Unicode code points. *)
Definition str := list N.

Inductive exn : Type := ValueError | SystemExit.

(** The outcome of a call that may raise. *)
Inductive result (A : Type) : Type :=
| Returned (a : A)
| Raised (e : exn).
Arguments Returned {A} a.
Arguments Raised {A} e.

Definition bind {A B : Type} (r : result A) (k : A -> result B) : result B :=
  match r with
  | Returned a => k a
  | Raised e => Raised e
  end.

Notation "x <- r ;; k" := (bind r (fun x => k))
  (at level 61, r at next level, right associativity).

Local Open Scope N_scope.

Definition is_continuation_byte (ch : N) : bool :=
  (0x80 <=? ch) && (ch <=? 0xBF).

(** [data.decode("utf-8", errors="ignore")].  A well-formed sequence gives
    its code point.  At an ill-formed one the decoder drops the bytes read
    so far (one for a bad start byte, those before the first bad
    continuation byte otherwise, all that is left when the data ends in the
    middle of a sequence) and goes on with the next byte. *)
Fixpoint utf8_decode_ignore (s : list byte) : str :=
  match s with
  | [] => []
  | c :: s1 =>
    let ch := Byte.to_N c in
    if ch <? 0x80 then ch :: utf8_decode_ignore s1
    else if ch <? 0xC2 then utf8_decode_ignore s1
    else if ch <? 0xE0 then
      match s1 with
      | [] => []
      | c2 :: s2 =>
        let ch2 := Byte.to_N c2 in
        if is_continuation_byte ch2 then
          (N.shiftl ch 6 + ch2 - (N.shiftl 0xC0 6 + 0x80))
            :: utf8_decode_ignore s2
        else utf8_decode_ignore s1
      end
    else if ch <? 0xF0 then
      match s1 with
      | [] => []
      | c2 :: s2 =>
        let ch2 := Byte.to_N c2 in
        if negb (is_continuation_byte ch2)
           || (if ch2 <? 0xA0 then ch =? 0xE0 else ch =? 0xED)
        then utf8_decode_ignore s1
        else
          match s2 with
          | [] => []
          | c3 :: s3 =>
            let ch3 := Byte.to_N c3 in
            if is_continuation_byte ch3 then
              (N.shiftl ch 12 + N.shiftl ch2 6 + ch3
               - (N.shiftl 0xE0 12 + N.shiftl 0x80 6 + 0x80))
                :: utf8_decode_ignore s3
            else utf8_decode_ignore s2
          end
      end
    else if ch <? 0xF5 then
      match s1 with
      | [] => []
      | c2 :: s2 =>
        let ch2 := Byte.to_N c2 in
        if negb (is_continuation_byte ch2)
           || (if ch2 <? 0x90 then ch =? 0xF0 else ch =? 0xF4)
        then utf8_decode_ignore s1
        else
          match s2 with
          | [] => []
          | c3 :: s3 =>
            let ch3 := Byte.to_N c3 in
            if negb (is_continuation_byte ch3) then utf8_decode_ignore s2
            else
              match s3 with
              | [] => []
              | c4 :: s4 =>
                let ch4 := Byte.to_N c4 in
                if is_continuation_byte ch4 then
                  (N.shiftl ch 18 + N.shiftl ch2 12 + N.shiftl ch3 6 + ch4
                   - (N.shiftl 0xF0 18 + N.shiftl 0x80 12
                      + N.shiftl 0x80 6 + 0x80))
                    :: utf8_decode_ignore s4
                else utf8_decode_ignore s3
              end
          end
      end
    else utf8_decode_ignore s1
  end.

(** The rows of the Unicode character database that the [str] methods of
    the decoder consult.  [digit c] is the value of a character whose
    Numeric_Type is Digit or Decimal ([str.isdigit] accepts it); [decimal c]
    is the value of a character of category Nd, the only ones [int]
    converts. *)
Class unicodedata : Type := {
  whitespace : N -> bool;
  digit : N -> option N;
  decimal : N -> option N
}.

Definition comma : N := 0x2C.

Section Str.

Context {ucd : unicodedata}.

Fixpoint lstrip (t : str) : str :=
  match t with
  | c :: t' => if whitespace c then lstrip t' else t
  | [] => []
  end.

Definition rstrip (t : str) : str := rev (lstrip (rev t)).

(** [t.strip()] *)
Definition strip (t : str) : str := rstrip (lstrip t).

(** [t.count(sep)] for a one-character separator *)
Fixpoint count (sep : N) (t : str) : nat :=
  match t with
  | [] => 0%nat
  | c :: t' => if c =? sep then S (count sep t') else count sep t'
  end.

(** [t.split(sep)] for a one-character separator *)
Fixpoint split (sep : N) (t : str) : list str :=
  match t with
  | [] => [[]]
  | c :: t' =>
    if c =? sep then [] :: split sep t'
    else match split sep t' with
         | f :: fs => (c :: f) :: fs
         | [] => [[c]]
         end
  end.

Definition is_digit_char (c : N) : bool :=
  match digit c with Some _ => true | None => false end.

(** [t.isdigit()]: at least one character, and digits only *)
Definition isdigit (t : str) : bool :=
  match t with
  | [] => false
  | _ => forallb is_digit_char t
  end.

(** The value of a run of decimal digits, [None] at the first character
    that [int] does not take for one. *)
Fixpoint decimal_value (acc : Z) (t : str) : option Z :=
  match t with
  | [] => Some acc
  | c :: t' =>
    match decimal c with
    | Some d => decimal_value (acc * 10 + Z.of_N d)%Z t'
    | None => None
    end
  end.

(** [int(t)] on the strings the decoder passes to it, which [isdigit]
    has accepted: they hold no sign, underscore or blank, so the
    conversion succeeds exactly when every character has a decimal
    value.  The interpreter's optional cap on the number of digits is out
    of reach of a 256-byte datagram and is left out. *)
Definition int (t : str) : result Z :=
  match t with
  | [] => Raised ValueError
  | _ => match decimal_value 0 t with
         | Some v => Returned v
         | None => Raised ValueError
         end
  end.

Definition reading : Type := Z * Z * Z * Z.

(** Robust CSV parse: b1,b2,x_raw,y_raw -- all must be digits. *)
Definition parse_packet (data : list byte) : result (option reading) :=
  let text := strip (utf8_decode_ignore data) in
  if (count comma text <? 3)%nat then Returned None
  else
    match firstn 4 (split comma text) with
    | [b1; b2; x_raw; y_raw] =>
      if negb (isdigit b1 && isdigit b2 && isdigit x_raw && isdigit y_raw)
      then Returned None
      else
        v1 <- int b1 ;; v2 <- int b2 ;;
        v3 <- int x_raw ;; v4 <- int y_raw ;;
        Returned (Some (v1, v2, v3, v4))
    | _ => Raised ValueError
    end.

End Str.

(** An excerpt of the character database: the rows of the Basic Latin and
    Latin-1 blocks, every blank character, and the digits of a few further
    blocks.  A code point outside the listed ranges is given no row. *)
Definition in_range (lo hi c : N) : bool := (lo <=? c) && (c <=? hi).

Definition excerpt_whitespace (c : N) : bool :=
  in_range 0x09 0x0D c || in_range 0x1C 0x20 c || (c =? 0x85) || (c =? 0xA0)
  || (c =? 0x1680) || in_range 0x2000 0x200A c || in_range 0x2028 0x2029 c
  || (c =? 0x202F) || (c =? 0x205F) || (c =? 0x3000).

Definition excerpt_decimal (c : N) : option N :=
  if in_range 0x30 0x39 c then Some (c - 0x30)            (* 0-9 *)
  else if in_range 0x660 0x669 c then Some (c - 0x660)    (* Arabic-Indic *)
  else if in_range 0x6F0 0x6F9 c then Some (c - 0x6F0)    (* Extended Arabic-Indic *)
  else if in_range 0x966 0x96F c then Some (c - 0x966)    (* Devanagari *)
  else if in_range 0xFF10 0xFF19 c then Some (c - 0xFF10) (* Fullwidth *)
  else None.

Definition excerpt_digit (c : N) : option N :=
  match excerpt_decimal c with
  | Some d => Some d
  | None =>
    if c =? 0xB2 then Some 2                                (* superscript two *)
    else if c =? 0xB3 then Some 3                           (* superscript three *)
    else if c =? 0xB9 then Some 1                           (* superscript one *)
    else if c =? 0x2070 then Some 0
    else if in_range 0x2074 0x2079 c then Some (c - 0x2070) (* superscripts *)
    else if in_range 0x2080 0x2089 c then Some (c - 0x2080) (* subscripts *)
    else if in_range 0x2460 0x2468 c then Some (c - 0x245F) (* circled 1-9 *)
    else None
  end.

#[global] Instance excerpt : unicodedata := {
  whitespace := excerpt_whitespace;
  digit := excerpt_digit;
  decimal := excerpt_decimal
}.

Local Close Scope N_scope.

(** The sender's record for b1=1, b2=1, x=32768, y=65535. *)
Definition packet_forward : list byte := list_byte_of_string "1,1,32768,65535".

(** [b"1,1,\xc2\xb2,5"]: the third field is SUPERSCRIPT TWO (U+00B2). *)
Definition packet_superscript : list byte :=
  list_byte_of_string "1,1," ++ [xc2; xb2] ++ list_byte_of_string ",5".

(** ** The control loop *)

(** The parsed command line. *)
Record args : Type := {
  port : Z;
  deadzone : float;
  base_speed : float;
  turbo_speed : float;
  expo : float;
  pwm_freq : Z;
  failsafe : float;
  verbose : bool
}.

Definition default_args : args := {|
  port := UDP_PORT;
  deadzone := DEADZONE;
  base_speed := BASE_SPEED;
  turbo_speed := TURBO_SPEED;
  expo := EXPO;
  pwm_freq := PWM_FREQ;
  failsafe := FAILSAFE_SEC;
  verbose := VERBOSE_LOG
|}.

(** What one pass of [while True] meets at [sock.recvfrom(256)], with the
    values [time.time()] returns during that pass:
    - [timeout now]: [socket.timeout] was raised; [now] is the clock at
      line 153;
    - [datagram data now now']: a datagram arrived; [now] is the clock at
      line 170 and [now'] the clock at line 190, both read only when the
      payload parses;
    - [interrupt]: [KeyboardInterrupt]. *)
Inductive tick : Type :=
| timeout (now : float)
| datagram (data : list byte) (now now' : float)
| interrupt.

(** The variables of [main] that live across iterations. *)
Record locals : Type := {
  pi : pigpio.pi;
  last_ok : float
}.

(** Where [main] stands after some ticks: at the head of the loop; returned
    after an interrupt, [finally] done; or ended by an uncaught exception
    (after [finally] when it was raised inside the loop). *)
Inductive outcome : Type :=
| Running (s : locals)
| Exited (p : pigpio.pi)
| Crashed (e : exn) (p : pigpio.pi).

(** Differential mixing (tank drive), lines 181 and 182. *)
Definition mix_left (y_unit x_unit max_speed : float) : float :=
  (py_max (-1) (py_min 1 (y_unit + x_unit)) * max_speed)%Q.
Definition mix_right (y_unit x_unit max_speed : float) : float :=
  (py_max (-1) (py_min 1 (y_unit - x_unit)) * max_speed)%Q.

(** The [finally] block: always leave things safe. *)
Definition finally (p : pigpio.pi) : pigpio.pi :=
  let p := stop_all p in
  let p := pigpio.set_servo_pulsewidth p SERVO_PIN 0 in
  pigpio.stop p.

Section Loop.

Context {ucd : unicodedata}.
Variable a : args.

(** The body of [while True] for a payload that parsed. *)
Definition drive (s : locals) (parsed : reading) (now now' : float)
  : locals :=
  let '(b1, b2, x_raw, y_raw) := parsed in
  let x_unit := apply_expo (adc_to_unit x_raw (deadzone a)) (expo a) in
  let y_unit := apply_expo (adc_to_unit y_raw (deadzone a)) (expo a) in
  let last_ok := now in
  let max_speed := if b1 =? 0 then turbo_speed a else base_speed a in
  let p :=
    if b2 =? 0 then
      let p := brake (pi s) IN1_L IN2_L EN_L in
      brake p IN1_R IN2_R EN_R
    else
      let left := mix_left y_unit x_unit max_speed in
      let right := mix_right y_unit x_unit max_speed in
      let p := set_motor (pi s) IN1_L IN2_L EN_L left in
      set_motor p IN1_R IN2_R EN_R right in
  let p := servo_from_x p x_unit SERVO_PIN in
  let p := if float_lt (failsafe a) (now' - last_ok)%Q then stop_all p
           else p in
  {| pi := p; last_ok := last_ok |}.

(** One pass of [while True]. *)
Definition iteration (s : locals) (e : tick) : outcome :=
  match e with
  | timeout now =>
    if float_lt (failsafe a) (now - last_ok s)%Q
    then Running {| pi := stop_all (pi s); last_ok := last_ok s |}
    else Running s
  | datagram data now now' =>
    match parse_packet (firstn 256 data) with
    | Raised e => Crashed e (finally (pi s))
    | Returned None => Running s
    | Returned (Some parsed) => Running (drive s parsed now now')
    end
  | interrupt => Exited (finally (pi s))
  end.

Fixpoint loop (s : locals) (ticks : list tick) : outcome :=
  match ticks with
  | [] => Running s
  | e :: ticks' =>
    match iteration s e with
    | Running s' => loop s' ticks'
    | o => o
    end
  end.

(** GPIO modes and the safe state before the loop. *)
Definition setup (p : pigpio.pi) : pigpio.pi :=
  let p := fold_left (fun p g => pigpio.write (pigpio.set_mode p g) g 0)
                     [IN1_L; IN2_L; IN1_R; IN2_R] p in
  let p := fold_left
             (fun p g =>
                let p := pigpio.set_mode p g in
                let p := pigpio.set_PWM_frequency p g (pwm_freq a) in
                pigpio.set_PWM_dutycycle p g 0)
             [EN_L; EN_R] p in
  let p := pigpio.set_mode p SERVO_PIN in
  pigpio.set_servo_pulsewidth p SERVO_PIN 1500.

(** [main]: [connected] is [pi.connected], [start] the clock at line 146,
    [ticks] what the loop meets. *)
Definition main (connected : bool) (start : float) (ticks : list tick)
  : outcome :=
  if negb connected then Crashed SystemExit []
  else loop {| pi := setup []; last_ok := start |} ticks.

End Loop.

(** ** The sender ([pico_w_controller_en.py]) *)

Local Open Scope N_scope.

(** The characters of a decimal numeral. *)
Fixpoint uint_chars (d : Decimal.uint) : str :=
  match d with
  | Decimal.Nil => []
  | Decimal.D0 l => 0x30 :: uint_chars l
  | Decimal.D1 l => 0x31 :: uint_chars l
  | Decimal.D2 l => 0x32 :: uint_chars l
  | Decimal.D3 l => 0x33 :: uint_chars l
  | Decimal.D4 l => 0x34 :: uint_chars l
  | Decimal.D5 l => 0x35 :: uint_chars l
  | Decimal.D6 l => 0x36 :: uint_chars l
  | Decimal.D7 l => 0x37 :: uint_chars l
  | Decimal.D8 l => 0x38 :: uint_chars l
  | Decimal.D9 l => 0x39 :: uint_chars l
  end.

(** [f"{n}"] for an integer *)
Definition str_of_int (n : Z) : str :=
  match n with
  | Z0 => [0x30]
  | Zpos p => uint_chars (Pos.to_uint p)
  | Zneg p => 0x2D :: uint_chars (Pos.to_uint p)
  end.

Definition byte_of_N (n : N) : byte :=
  match Byte.of_N n with Some b => b | None => x00 end.

(** [t.encode()]: UTF-8 *)
Definition utf8_encode_char (c : N) : list byte :=
  if c <? 0x80 then [byte_of_N c]
  else if c <? 0x800 then
    [byte_of_N (0xC0 + c / 0x40); byte_of_N (0x80 + c mod 0x40)]
  else if c <? 0x10000 then
    [byte_of_N (0xE0 + c / 0x1000); byte_of_N (0x80 + (c / 0x40) mod 0x40);
     byte_of_N (0x80 + c mod 0x40)]
  else
    [byte_of_N (0xF0 + c / 0x40000); byte_of_N (0x80 + (c / 0x1000) mod 0x40);
     byte_of_N (0x80 + (c / 0x40) mod 0x40); byte_of_N (0x80 + c mod 0x40)].

Definition encode (t : str) : list byte := flat_map utf8_encode_char t.

Local Close Scope N_scope.

(** [f"{b1},{b2},{x_val},{y_val}"] *)
Definition message (b1 b2 x_val y_val : Z) : str :=
  str_of_int b1 ++ comma :: str_of_int b2 ++ comma :: str_of_int x_val
  ++ comma :: str_of_int y_val.

(** One pass of the sender's loop, from the levels of the two buttons and
    the two ADC samples to the datagram it sends. *)
Definition sender_datagram (button1 button2 x_val y_val : Z) : list byte :=
  let b1 := if button1 =? 0 then 0 else 1 in
  let b2 := if button2 =? 0 then 0 else 1 in
  encode (message b1 b2 x_val y_val).

(** ** Notions used in the statements *)

(** The magnitude [abs(val)] that [set_motor] scales to a duty cycle. *)
Definition motor_magnitude (val : float) : float :=
  Qabs (py_max (-1)%Q (py_min 1%Q val)).

(** The ranges the driver expects: a duty cycle in 0..255 and a servo pulse
    width in 500..2500 us. *)
Definition call_in_range (c : pigpio.call) : Prop :=
  match c with
  | pigpio.Set_PWM_dutycycle _ d => 0 <= d <= 255
  | pigpio.Set_servo_pulsewidth _ w => 500 <= w <= 2500
  | _ => True
  end.

(** The calls of the safe state, in the order [stop_all] makes them. *)
Definition safe_state_calls : list pigpio.call :=
  [ pigpio.Write IN1_L 1; pigpio.Write IN2_L 1; pigpio.Set_PWM_dutycycle EN_L 0;
    pigpio.Write IN1_R 1; pigpio.Write IN2_R 1; pigpio.Set_PWM_dutycycle EN_R 0;
    pigpio.Set_servo_pulsewidth SERVO_PIN 1500 ].

(** Both motors braked and the servo at neutral. *)
Definition in_safe_state (p : pigpio.pi) : Prop :=
  pigpio.read p IN1_L = Some 1 /\ pigpio.read p IN2_L = Some 1
  /\ pigpio.get_PWM_dutycycle p EN_L = Some 0
  /\ pigpio.read p IN1_R = Some 1 /\ pigpio.read p IN2_R = Some 1
  /\ pigpio.get_PWM_dutycycle p EN_R = Some 0
  /\ pigpio.get_servo_pulsewidth p SERVO_PIN = Some 1500.

(** A tick that brings no valid reading: a receive timeout, or a datagram
    that the decoder rejects. *)
Definition silent {ucd : unicodedata} (e : tick) : Prop :=
  match e with
  | timeout _ => True
  | datagram data _ _ => parse_packet (firstn 256 data) = Returned None
  | interrupt => False
  end.

(** The calls one valid reading issues, on a handle with no history. *)
Definition drive_calls {ucd : unicodedata} (a : args) (parsed : reading)
    (now now' : float) : list pigpio.call :=
  pi (drive a {| pi := []; last_ok := now |} parsed now now').

(** A datagram that is no record at all. *)
Definition packet_malformed : list byte := list_byte_of_string "abc".

(** One valid record at clock 0 (full forward at base speed), then forty
    malformed datagrams 50 ms apart, the last one at clock 2. *)
Definition flood : list tick :=
  datagram packet_forward 0%Q 0%Q
  :: map (fun i => let t := (inject_Z (Z.of_nat i) * (5 # 100))%Q in
                   datagram packet_malformed t t)
         (seq 1 40).

(** [b"0,1,1\xc2\xb9,7\xc2\xb3"]: SUPERSCRIPT ONE (U+00B9) and SUPERSCRIPT
    THREE (U+00B3) among the digits of the axis fields. *)
Definition packet_exponents : list byte :=
  list_byte_of_string "0,1,1" ++ [xc2; xb9]
  ++ list_byte_of_string ",7" ++ [xc2; xb3].

(** The sender's record with button2 pressed and both axes centred. *)
Definition packet_brake : list byte := list_byte_of_string "1,0,32768,32768".

(** The variables of [main] on a handle without history, clock at 0. *)
Definition fresh : locals := {| pi := []; last_ok := 0%Q |}.

(** The rows of the ASCII digits: no blanks, and each with its value both
    as a digit and as a decimal. *)
Definition ascii_digit_rows (ucd : unicodedata) : Prop :=
  forall c, (0x30 <= c <= 0x39)%N ->
    whitespace c = false
    /\ digit c = Some (c - 0x30)%N
    /\ decimal c = Some (c - 0x30)%N.

Definition ascii_digit (c : N) : Prop := (0x30 <= c <= 0x39)%N.

(** ** Notions used in the further properties *)

(** The number a run of ASCII digits writes, leading zeros allowed. *)
Definition ascii_value (t : str) : Z :=
  fold_left (fun acc c => acc * 10 + (Z.of_N c - 48)) t 0.

(** The handle an outcome of [main] leaves behind. *)
Definition handle (o : outcome) : pigpio.pi :=
  match o with
  | Running s => pi s
  | Exited p => p
  | Crashed _ p => p
  end.

(** A call the script can make on its seven lines: a level 0 or 1 on a
    direction line, a frequency or a duty cycle 0..255 on an enable line, a
    pulse width 500..2500 (or 0, signal off) on the servo line. *)
Definition call_well_formed (pwm_freq : Z) (c : pigpio.call) : Prop :=
  match c with
  | pigpio.Set_mode g =>
    In g [IN1_L; IN2_L; IN1_R; IN2_R; EN_L; EN_R; SERVO_PIN]
  | pigpio.Write g v => In g [IN1_L; IN2_L; IN1_R; IN2_R] /\ (v = 0 \/ v = 1)
  | pigpio.Set_PWM_frequency g f => In g [EN_L; EN_R] /\ f = pwm_freq
  | pigpio.Set_PWM_dutycycle g d => In g [EN_L; EN_R] /\ 0 <= d <= 255
  | pigpio.Set_servo_pulsewidth g w =>
    g = SERVO_PIN /\ (w = 0 \/ 500 <= w <= 2500)
  | pigpio.Stop => True
  end.

(** Both motors coasting (direction lines low, no power) and the servo at
    neutral. *)
Definition coasting (p : pigpio.pi) : Prop :=
  pigpio.read p IN1_L = Some 0 /\ pigpio.read p IN2_L = Some 0
  /\ pigpio.get_PWM_dutycycle p EN_L = Some 0
  /\ pigpio.read p IN1_R = Some 0 /\ pigpio.read p IN2_R = Some 0
  /\ pigpio.get_PWM_dutycycle p EN_R = Some 0
  /\ pigpio.get_servo_pulsewidth p SERVO_PIN = Some 1500.

Definition nonempty (t : str) : bool :=
  match t with [] => false | _ => true end.

(** ASCII characters that [strip] removes, and ASCII characters it keeps. *)
Definition ascii_blank {ucd : unicodedata} (c : N) : Prop :=
  (c < 0x80)%N /\ whitespace c = true.
Definition ascii_mark {ucd : unicodedata} (c : N) : Prop :=
  (c < 0x80)%N /\ whitespace c = false.

(** A Unicode scalar value: a code point that is no surrogate. *)
Definition unicode_scalar (c : N) : Prop :=
  (c < 0x110000)%N /\ ~ (0xD800 <= c <= 0xDFFF)%N.

(** * Properties *)

(** ** Floats *)

Section FloatFacts.

Local Open Scope Q_scope.

Lemma float_lt_true (a b : float) : float_lt a b = true <-> a < b.
Proof.
  unfold float_lt. rewrite negb_true_iff.
  split; intro H.
  - apply Qnot_le_lt. intro L. apply Qle_bool_iff in L. congruence.
  - destruct (Qle_bool b a) eqn:E; [ | reflexivity ].
    apply Qle_bool_iff in E. exfalso. apply (Qlt_not_le _ _ H E).
Qed.

Lemma float_lt_false (a b : float) : float_lt a b = false <-> b <= a.
Proof.
  unfold float_lt. rewrite negb_false_iff. apply Qle_bool_iff.
Qed.

Lemma float_lt_cases (a b : float) :
  (float_lt a b = true /\ a < b) \/ (float_lt a b = false /\ b <= a).
Proof.
  destruct (float_lt a b) eqn:E.
  - left. split; [ reflexivity | now apply float_lt_true ].
  - right. split; [ reflexivity | now apply float_lt_false ].
Qed.

(** [max(-1.0, min(1.0, v))] lands in the unit interval. *)
Lemma clamp_bounds (v : float) :
  -1 <= py_max (-1) (py_min 1 v) <= 1.
Proof.
  unfold py_max, py_min.
  destruct (float_lt_cases v 1) as [[-> Hv] | [-> Hv]];
    [ destruct (float_lt_cases (-1) v) as [[-> Hw] | [-> Hw]]
    | destruct (float_lt_cases (-1) 1) as [[-> Hw] | [-> Hw]] ];
    lra.
Qed.


Lemma int_of_float_bounds (lo hi : Z) (q : float) :
  (0 <= lo)%Z -> inject_Z lo <= q <= inject_Z hi ->
  (lo <= int_of_float q <= hi)%Z.
Proof.
  intros Hlo [H1 H2]. destruct q as [n d].
  unfold int_of_float, Qle, inject_Z in *. simpl in *.
  assert (Hn : (0 <= n)%Z) by nia.
  rewrite Z.quot_div_nonneg by lia.
  split.
  - apply Z.div_le_lower_bound; lia.
  - apply Z.div_le_upper_bound; lia.
Qed.

Lemma cube_bounds (u : float) : -1 <= u <= 1 -> -1 <= u ^ 3 <= 1.
Proof.
  intros [Hl Hu].
  assert (E : u ^ 3 == u * (u * u)) by (simpl; ring).
  rewrite E.
  assert (0 <= u * u) by nra.
  assert (u * u <= 1) by nra.
  split; nra.
Qed.

Lemma adc_to_unit_bounds (v : Z) (d : float) : -1 <= adc_to_unit v d <= 1.
Proof.
  unfold adc_to_unit.
  destruct (float_lt _ d); [ lra | apply clamp_bounds ].
Qed.

Lemma apply_expo_bounds (u k : float) :
  -1 <= u <= 1 -> 0 <= k <= 1 -> -1 <= apply_expo u k <= 1.
Proof.
  intros Hu [Hk0 Hk1]. pose proof (cube_bounds u Hu) as [Hc0 Hc1].
  destruct Hu as [Hu0 Hu1]. unfold apply_expo.
  set (c := u ^ 3) in *. clearbody c.
  split; nra.
Qed.

End FloatFacts.

(** ** Input shaping and mixing *)

Section Shaping.

Local Open Scope Q_scope.

(** C8. [apply_expo] is odd-symmetric, is the identity at [k = 0] and
    sends 0 to 0; the three equations hold for every [u] and [k], in
    particular for [u] in [-1, 1] and [k] in [0, 1]. *)
Theorem apply_expo_odd_identity_zero (u k : float) :
  apply_expo (- u) k == - apply_expo u k
  /\ apply_expo u 0 == u
  /\ apply_expo 0 k == 0.
Proof.
  unfold apply_expo. simpl. repeat split; ring.
Qed.

Lemma clamp_times_ceiling (v c : float) :
  0 <= c -> Qabs (py_max (-1) (py_min 1 v) * c) <= c.
Proof.
  intro Hc. destruct (clamp_bounds v) as [Hl Hu].
  set (w := py_max (-1) (py_min 1 v)) in *. clearbody w.
  apply Qabs_Qle_condition. split; nra.
Qed.

(** C7. Tank-drive mixing never exceeds the active speed ceiling:
    for a non-negative ceiling, [|left| <= ceiling] and
    [|right| <= ceiling], whatever the shaped axis values. *)
Theorem mixing_within_ceiling (y_unit x_unit max_speed : float) :
  0 <= max_speed ->
  Qabs (mix_left y_unit x_unit max_speed) <= max_speed
  /\ Qabs (mix_right y_unit x_unit max_speed) <= max_speed.
Proof.
  intro Hc. unfold mix_left, mix_right.
  split; apply clamp_times_ceiling; exact Hc.
Qed.

Lemma mixing_within_ceiling_witness :
  0 <= BASE_SPEED
  /\ Qabs (mix_left 1 1 BASE_SPEED) <= BASE_SPEED
  /\ Qabs (mix_right 1 1 BASE_SPEED) <= BASE_SPEED.
Proof.
  split.
  - vm_compute. discriminate.
  - apply (mixing_within_ceiling 1 1 BASE_SPEED). vm_compute. discriminate.
Defined.

Lemma motor_magnitude_bounds (val : float) : 0 <= motor_magnitude val <= 1.
Proof.
  unfold motor_magnitude. split.
  - apply Qabs_nonneg.
  - apply Qabs_Qle_condition. apply clamp_bounds.
Qed.

Lemma motor_duty_bounds (val : float) :
  (0 <= int_of_float (motor_magnitude val * 255)%Q <= 255)%Z.
Proof.
  destruct (motor_magnitude_bounds val) as [H0 H1].
  apply int_of_float_bounds; [ lia | ].
  change (inject_Z 0) with 0. change (inject_Z 255) with 255.
  split; nra.
Qed.

Lemma servo_pulse_bounds (x : float) : (500 <= servo_pulse x <= 2500)%Z.
Proof. unfold servo_pulse. lia. Qed.


End Shaping.

(** ** Actuator commands *)

Section Actuators.

Import pigpio.

(** Each command appends its calls to the handle. *)
Lemma brake_calls (p : pigpio.pi) (dir_a dir_b en : Z) :
  brake p dir_a dir_b en
  = p ++ [Write dir_a 1; Write dir_b 1; Set_PWM_dutycycle en 0].
Proof.
  unfold brake, write, set_PWM_dutycycle.
  now rewrite <- !app_assoc.
Qed.

Lemma stop_all_calls (p : pigpio.pi) : stop_all p = p ++ safe_state_calls.
Proof.
  unfold stop_all, set_servo_pulsewidth.
  rewrite !brake_calls, <- !app_assoc. reflexivity.
Qed.

Lemma set_motor_calls (p : pigpio.pi) (dir_a dir_b en : Z) (val : float) :
  exists la lb,
    set_motor p dir_a dir_b en val
    = p ++ [Write dir_a la; Write dir_b lb;
            Set_PWM_dutycycle en
              (int_of_float (motor_magnitude val * 255)%Q)].
Proof.
  unfold set_motor, motor_magnitude, write, set_PWM_dutycycle.
  destruct (float_lt 0%Q _); [ | destruct (float_lt _ 0%Q) ];
    do 2 eexists; rewrite <- !app_assoc; reflexivity.
Qed.

Lemma servo_from_x_calls (p : pigpio.pi) (x : float) (pin : Z) :
  servo_from_x p x pin = p ++ [Set_servo_pulsewidth pin (servo_pulse x)].
Proof. reflexivity. Qed.

(** The state of the lines after some more calls. *)
Lemma read_app (p cs : pigpio.pi) (g : Z) :
  read (p ++ cs) g = fold_left (level_after g) cs (read p g).
Proof. apply fold_left_app. Qed.

Lemma get_PWM_dutycycle_app (p cs : pigpio.pi) (g : Z) :
  get_PWM_dutycycle (p ++ cs) g
  = fold_left (dutycycle_after g) cs (get_PWM_dutycycle p g).
Proof. apply fold_left_app. Qed.

Lemma get_servo_pulsewidth_app (p cs : pigpio.pi) (g : Z) :
  get_servo_pulsewidth (p ++ cs) g
  = fold_left (pulsewidth_after g) cs (get_servo_pulsewidth p g).
Proof. apply fold_left_app. Qed.

(** Whatever the lines carried, the calls of the safe state leave both
    motors braked and the servo at neutral. *)
Lemma safe_state_reached (p : pigpio.pi) :
  in_safe_state (p ++ safe_state_calls).
Proof.
  unfold in_safe_state.
  rewrite !read_app, !get_PWM_dutycycle_app, !get_servo_pulsewidth_app.
  cbn. repeat split; reflexivity.
Qed.

Lemma stop_all_safe (p : pigpio.pi) : in_safe_state (stop_all p).
Proof. rewrite stop_all_calls. apply safe_state_reached. Qed.

Lemma safe_state_calls_in_range : Forall call_in_range safe_state_calls.
Proof. repeat constructor; cbn; lia. Qed.

End Actuators.

(** ** The control loop *)

Section LoopFacts.

Context {ucd : unicodedata}.
Variable a : args.

(** A valid reading moves the liveness stamp to the clock of line 170 ... *)
Lemma drive_last_ok (s : locals) (r : reading) (now now' : float) :
  last_ok (drive a s r now now') = now.
Proof. destruct r as [[[b1 b2] x_raw] y_raw]. reflexivity. Qed.

(** ... and issues calls that depend on the reading, the configuration
    and the two clock values only, not on what happened before. *)
Lemma drive_appends (s : locals) (r : reading) (now now' : float) :
  pi (drive a s r now now') = pi s ++ drive_calls a r now now'.
Proof.
  destruct r as [[[b1 b2] x_raw] y_raw]. unfold drive_calls, drive.
  cbn [pi].
  unfold stop_all, servo_from_x, set_motor, brake, pigpio.write,
    pigpio.set_PWM_dutycycle, pigpio.set_servo_pulsewidth.
  repeat match goal with
         | |- context [if ?c then _ else _] => destruct c
         end;
    rewrite <- ?app_assoc; reflexivity.
Qed.

Lemma iteration_valid (s : locals) (data : list byte) (r : reading)
    (now now' : float) :
  parse_packet (firstn 256 data) = Returned (Some r) ->
  iteration a s (datagram data now now')
  = Running {| pi := pi s ++ drive_calls a r now now'; last_ok := now |}.
Proof.
  intro H. unfold iteration. rewrite H. f_equal.
  pose proof (drive_appends s r now now') as Hp.
  pose proof (drive_last_ok s r now now') as Hl.
  destruct (drive a s r now now') as [p l]. cbn [pi last_ok] in Hp, Hl.
  now rewrite Hp, Hl.
Qed.

Lemma iteration_invalid (s : locals) (data : list byte) (now now' : float) :
  parse_packet (firstn 256 data) = Returned None ->
  iteration a s (datagram data now now') = Running s.
Proof. intro H. unfold iteration. now rewrite H. Qed.

Lemma iteration_timeout_tripped (s : locals) (now : float) :
  (failsafe a < now - last_ok s)%Q ->
  iteration a s (timeout now)
  = Running {| pi := pi s ++ safe_state_calls; last_ok := last_ok s |}.
Proof.
  intro H. apply float_lt_true in H. unfold iteration. rewrite H.
  now rewrite stop_all_calls.
Qed.

Lemma iteration_timeout_quiet (s : locals) (now : float) :
  (now - last_ok s <= failsafe a)%Q ->
  iteration a s (timeout now) = Running s.
Proof.
  intro H. apply float_lt_false in H. unfold iteration. now rewrite H.
Qed.

(** A tick without a valid reading leaves the liveness stamp alone. *)
Lemma silent_keeps_last_ok (s s' : locals) (e : tick) :
  silent e -> iteration a s e = Running s' -> last_ok s' = last_ok s.
Proof.
  destruct e as [now | data now now' | ]; cbn [silent]; intros He H.
  - unfold iteration in H.
    destruct (float_lt _ _); injection H as <-; reflexivity.
  - rewrite (iteration_invalid s data now now' He) in H.
    now injection H as <-.
  - contradiction.
Qed.



End LoopFacts.

(** ** Liveness, braking and the failsafe *)

Section LoopClaims.

Context {ucd : unicodedata}.

(** The calls of a valid reading, by the state of button2. *)
Lemma drive_calls_braking (a : args) (b1 x_raw y_raw : Z)
    (now now' : float) :
  let x_unit := apply_expo (adc_to_unit x_raw (deadzone a)) (expo a) in
  drive_calls a (b1, 0, x_raw, y_raw) now now'
  = [pigpio.Write IN1_L 1; pigpio.Write IN2_L 1;
     pigpio.Set_PWM_dutycycle EN_L 0;
     pigpio.Write IN1_R 1; pigpio.Write IN2_R 1;
     pigpio.Set_PWM_dutycycle EN_R 0;
     pigpio.Set_servo_pulsewidth SERVO_PIN (servo_pulse x_unit)]
    ++ (if float_lt (failsafe a) (now' - now)%Q
        then safe_state_calls else []).
Proof.
  intro x_unit. unfold drive_calls, drive. cbn [pi last_ok Z.eqb].
  fold x_unit.
  rewrite !brake_calls, servo_from_x_calls. cbn [app].
  destruct (float_lt _ _).
  - now rewrite stop_all_calls.
  - reflexivity.
Qed.

Lemma drive_calls_moving (a : args) (b1 b2 x_raw y_raw : Z)
    (now now' : float) :
  b2 <> 0 ->
  let x_unit := apply_expo (adc_to_unit x_raw (deadzone a)) (expo a) in
  let y_unit := apply_expo (adc_to_unit y_raw (deadzone a)) (expo a) in
  let max_speed := if b1 =? 0 then turbo_speed a else base_speed a in
  let left := mix_left y_unit x_unit max_speed in
  let right := mix_right y_unit x_unit max_speed in
  exists la lb ra rb,
    drive_calls a (b1, b2, x_raw, y_raw) now now'
    = [pigpio.Write IN1_L la; pigpio.Write IN2_L lb;
       pigpio.Set_PWM_dutycycle EN_L
         (int_of_float (motor_magnitude left * 255)%Q);
       pigpio.Write IN1_R ra; pigpio.Write IN2_R rb;
       pigpio.Set_PWM_dutycycle EN_R
         (int_of_float (motor_magnitude right * 255)%Q);
       pigpio.Set_servo_pulsewidth SERVO_PIN (servo_pulse x_unit)]
      ++ (if float_lt (failsafe a) (now' - now)%Q
          then safe_state_calls else []).
Proof.
  intros Hb x_unit y_unit max_speed left right.
  apply Z.eqb_neq in Hb.
  unfold drive_calls, drive. cbn [pi last_ok]. rewrite Hb.
  fold x_unit y_unit max_speed left right.
  destruct (set_motor_calls [] IN1_L IN2_L EN_L left) as (la & lb & ->).
  destruct (set_motor_calls
              ([] ++ [pigpio.Write IN1_L la; pigpio.Write IN2_L lb;
                      pigpio.Set_PWM_dutycycle EN_L
                        (int_of_float (motor_magnitude left * 255)%Q)])
              IN1_R IN2_R EN_R right) as (ra & rb & ->).
  exists la, lb, ra, rb.
  rewrite servo_from_x_calls. cbn [app].
  destruct (float_lt _ _).
  - now rewrite stop_all_calls.
  - reflexivity.
Qed.

(** C4. An iteration whose datagram parses as invalid changes nothing, so
    the liveness stamp [last_ok] stays; an iteration whose datagram
    parses sets it to the current time; and every iteration that brings
    no parsed datagram leaves it as it was. *)
Theorem liveness_follows_valid_readings (a : args) (s s' : locals)
    (e : tick) :
  iteration a s e = Running s' ->
  (forall data now now',
      e = datagram data now now' ->
      parse_packet (firstn 256 data) = Returned None -> s' = s)
  /\ (forall data now now' r,
         e = datagram data now now' ->
         parse_packet (firstn 256 data) = Returned (Some r) ->
         last_ok s' = now)
  /\ ((forall data now now' r,
          e = datagram data now now' ->
          parse_packet (firstn 256 data) <> Returned (Some r)) ->
      last_ok s' = last_ok s).
Proof.
  intro H. repeat split.
  - intros data now now' -> Hp.
    rewrite (iteration_invalid a s data now now' Hp) in H.
    now injection H as <-.
  - intros data now now' r -> Hp.
    rewrite (iteration_valid a s data r now now' Hp) in H.
    now injection H as <-.
  - intro Hn. destruct e as [now | data now now' | ].
    + apply (silent_keeps_last_ok a s s' (timeout now) I H).
    + unfold iteration in H.
      destruct (parse_packet (firstn 256 data)) as [[r | ] | ex] eqn:Hp.
      * exfalso. exact (Hn data now now' r eq_refl Hp).
      * now injection H as <-.
      * discriminate H.
    + discriminate H.
Qed.

(** C6. A valid reading with button2 = 0 brakes both motors (both
    direction lines high, zero duty) whatever the axes say, and the servo
    pulse of the shaped x axis is issued in the same iteration; the only
    calls that may follow are those of the in-loop failsafe barrier. *)
Theorem brake_button_overrides_axes (a : args) (s : locals)
    (data : list byte) (now now' : float) (b1 x_raw y_raw : Z) :
  parse_packet (firstn 256 data) = Returned (Some (b1, 0, x_raw, y_raw)) ->
  let x_unit := apply_expo (adc_to_unit x_raw (deadzone a)) (expo a) in
  iteration a s (datagram data now now')
  = Running {|
        pi := pi s
              ++ [pigpio.Write IN1_L 1; pigpio.Write IN2_L 1; pigpio.Set_PWM_dutycycle EN_L 0;
                  pigpio.Write IN1_R 1; pigpio.Write IN2_R 1; pigpio.Set_PWM_dutycycle EN_R 0;
                  pigpio.Set_servo_pulsewidth SERVO_PIN (servo_pulse x_unit)]
              ++ (if float_lt (failsafe a) (now' - now)%Q
                  then safe_state_calls else []);
        last_ok := now |}.
Proof.
  intros Hp x_unit. rewrite (iteration_valid a s data _ now now' Hp).
  now rewrite drive_calls_braking.
Qed.

(** C5. For an expo factor in [0, 1] (and any deadzone), a valid reading
    gives axis values in [-1, 1] both after normalisation and after the
    expo blend, motor magnitudes in [0, 1], and calls whose duty cycles
    lie in 0..255 and whose servo pulse widths lie in 500..2500. *)
Theorem commands_within_range (a : args) (s : locals) (data : list byte)
    (now now' : float) (b1 b2 x_raw y_raw : Z) :
  (0 <= expo a <= 1)%Q ->
  parse_packet (firstn 256 data) = Returned (Some (b1, b2, x_raw, y_raw)) ->
  let x0 := adc_to_unit x_raw (deadzone a) in
  let y0 := adc_to_unit y_raw (deadzone a) in
  let x_unit := apply_expo x0 (expo a) in
  let y_unit := apply_expo y0 (expo a) in
  let max_speed := if b1 =? 0 then turbo_speed a else base_speed a in
  let left := mix_left y_unit x_unit max_speed in
  let right := mix_right y_unit x_unit max_speed in
  ((-1 <= x0 <= 1)%Q /\ (-1 <= y0 <= 1)%Q
   /\ (-1 <= x_unit <= 1)%Q /\ (-1 <= y_unit <= 1)%Q)
  /\ ((0 <= motor_magnitude left <= 1)%Q
      /\ (0 <= motor_magnitude right <= 1)%Q)
  /\ exists calls,
      iteration a s (datagram data now now')
      = Running {| pi := pi s ++ calls; last_ok := now |}
      /\ Forall call_in_range calls
      /\ In (pigpio.Set_servo_pulsewidth SERVO_PIN (servo_pulse x_unit))
            calls
      /\ (b2 <> 0 ->
          In (pigpio.Set_PWM_dutycycle EN_L
                (int_of_float (motor_magnitude left * 255)%Q)) calls
          /\ In (pigpio.Set_PWM_dutycycle EN_R
                   (int_of_float (motor_magnitude right * 255)%Q)) calls).
Proof.
  intros Hk Hp x0 y0 x_unit y_unit max_speed left right.
  split; [ | split ].
  - repeat split;
      try apply adc_to_unit_bounds;
      apply apply_expo_bounds; try exact Hk; apply adc_to_unit_bounds.
  - split; apply motor_magnitude_bounds.
  - exists (drive_calls a (b1, b2, x_raw, y_raw) now now').
    split; [ now apply iteration_valid | ].
    assert (Htail : Forall call_in_range
                      (if float_lt (failsafe a) (now' - now)%Q
                       then safe_state_calls else [])).
    { destruct (float_lt _ _);
        [ apply safe_state_calls_in_range | constructor ]. }
    destruct (Z.eq_dec b2 0) as [-> | Hb].
    + rewrite drive_calls_braking. fold x0 x_unit.
      split; [ | split ].
      * apply Forall_app. split; [ | exact Htail ].
        repeat apply Forall_cons; try apply Forall_nil;
          cbn [call_in_range]; try lia; apply servo_pulse_bounds.
      * apply in_or_app. left. cbn. tauto.
      * intro H. now contradiction H.
    + destruct (drive_calls_moving a b1 b2 x_raw y_raw now now' Hb)
        as (la & lb & ra & rb & ->).
      fold x0 y0 x_unit y_unit max_speed left right.
      split; [ | split ].
      * apply Forall_app. split; [ | exact Htail ].
        repeat apply Forall_cons; try apply Forall_nil;
          cbn [call_in_range]; try exact I;
          try apply motor_duty_bounds; apply servo_pulse_bounds.
      * apply in_or_app. left. cbn. tauto.
      * intros _. split; apply in_or_app; left; cbn; tauto.
Qed.


End LoopClaims.

(** ** The failsafe under traffic *)

Section Failsafe.

Context {ucd : unicodedata}.

(** With no traffic the failsafe works: the first receive timeout after
    the window has run out puts the actuators in the safe state, whatever
    they were doing. *)
Lemma failsafe_trips_on_timeout (a : args) (s : locals) (now : float) :
  (failsafe a < now - last_ok s)%Q ->
  exists s', iteration a s (timeout now) = Running s'
             /\ in_safe_state (pi s') /\ last_ok s' = last_ok s.
Proof.
  intro H. eexists. split; [ now apply iteration_timeout_tripped | ].
  split; [ apply safe_state_reached | reflexivity ].
Qed.

(** A rejected datagram ends the iteration before any test of the
    window: a run of them issues no call at all, for any length of the
    run and any reading of the clock. *)
Lemma rejected_datagrams_issue_nothing (a : args) (ticks : list tick) :
  Forall (fun e => exists data now now',
              e = datagram data now now'
              /\ parse_packet (firstn 256 data) = Returned None) ticks ->
  forall s, loop a s ticks = Running s.
Proof.
  induction 1 as [ | e ticks (data & now & now' & -> & Hp) _ IH ]; intro s.
  - reflexivity.
  - cbn [loop]. rewrite (iteration_invalid a s data now now' Hp). apply IH.
Qed.

End Failsafe.

(** C1. The failsafe does not hold under malformed traffic.  After one
    valid record at clock 0 (full forward at base speed) forty rejected
    datagrams arrive 50 ms apart, so that no valid datagram has arrived for
    2 s, four times the window of 0.5 s: the loop has issued no call since
    the drive command, both motors still run forward at duty 153 and the
    safe state has not been reached. *)
Theorem failsafe_starved_by_malformed_traffic :
  exists s,
    main default_args true 0%Q flood = Running s
    /\ Forall silent (tl flood)
    /\ last_ok s = 0%Q
    /\ (failsafe default_args < 2 - last_ok s)%Q
    /\ pi s = setup default_args []
              ++ [pigpio.Write IN1_L 1; pigpio.Write IN2_L 0;
                  pigpio.Set_PWM_dutycycle EN_L 153;
                  pigpio.Write IN1_R 1; pigpio.Write IN2_R 0;
                  pigpio.Set_PWM_dutycycle EN_R 153;
                  pigpio.Set_servo_pulsewidth SERVO_PIN 1500]
    /\ pigpio.read (pi s) IN2_L = Some 0
    /\ pigpio.get_PWM_dutycycle (pi s) EN_L = Some 153
    /\ ~ in_safe_state (pi s).
Proof.
  eexists. split; [ vm_compute; reflexivity | ].
  split.
  - cbn [flood tl]. apply Forall_forall. intros e He.
    apply in_map_iff in He. destruct He as (i & <- & _).
    vm_compute. reflexivity.
  - cbn [pi last_ok]. repeat split; try (vm_compute; reflexivity).
    intros (_ & H & _). vm_compute in H. discriminate H.
Qed.

(** ** The decoder *)

Section DecoderFacts.

Context {ucd : unicodedata}.

Lemma split_length (sep : N) (t : str) :
  List.length (split sep t) = S (count sep t).
Proof.
  induction t as [ | c t IH ]; cbn [split count]; [ reflexivity | ].
  destruct (c =? sep)%N.
  - cbn [List.length]. now rewrite IH.
  - destruct (split sep t) as [ | f fs ]; [ discriminate IH | exact IH ].
Qed.

(** With three commas in the text the unpacking of line 92 has its four
    fields. *)
Lemma unpack_succeeds (t : str) :
  (3 <= count comma t)%nat ->
  exists b1 b2 x_raw y_raw, firstn 4 (split comma t) = [b1; b2; x_raw; y_raw].
Proof.
  intro H. pose proof (split_length comma t) as L.
  destruct (split comma t) as [ | b1 [ | b2 [ | x_raw [ | y_raw l ]]]];
    cbn [List.length] in L; try lia.
  now exists b1, b2, x_raw, y_raw.
Qed.



Lemma int_raises (t : str) (e : exn) : int t = Raised e -> e = ValueError.
Proof.
  unfold int. destruct t as [ | c t ]; [ now intros [= <-] | ].
  destruct (decimal_value 0 (c :: t)); [ discriminate | now intros [= <-] ].
Qed.


(** The decoder returns invalid exactly when the trimmed text has fewer
    than three commas or one of its first four fields fails [isdigit]. *)
Lemma parse_packet_invalid_iff (data : list byte) :
  let text := strip (utf8_decode_ignore data) in
  parse_packet data = Returned None
  <-> (count comma text < 3)%nat
      \/ exists f, In f (firstn 4 (split comma text)) /\ isdigit f = false.
Proof.
  intro text. unfold parse_packet. fold text.
  destruct (Nat.ltb_spec (count comma text) 3) as [Hc | Hc].
  - split; [ now left | reflexivity ].
  - destruct (unpack_succeeds text Hc) as (f1 & f2 & f3 & f4 & ->).
    destruct (isdigit f1) eqn:D1, (isdigit f2) eqn:D2,
             (isdigit f3) eqn:D3, (isdigit f4) eqn:D4; cbn [andb negb];
      try (split; [ intros _; right; eexists; split;
                    [ | eassumption ]; cbn [In]; tauto
                  | reflexivity ]).
    split.
    + destruct (int f1), (int f2), (int f3), (int f4); discriminate.
    + intros [H | (f & Hin & Hf)]; [ lia | ].
      cbn [In] in Hin. intuition (subst; congruence).
Qed.

(** The only exception of the decoder is the [ValueError] of [int]. *)
Lemma parse_packet_raises (data : list byte) (e : exn) :
  parse_packet data = Raised e ->
  let text := strip (utf8_decode_ignore data) in
  e = ValueError
  /\ exists f, In f (firstn 4 (split comma text))
               /\ isdigit f = true /\ int f = Raised ValueError.
Proof.
  intros H text. unfold parse_packet in H. fold text in H.
  destruct (Nat.ltb_spec (count comma text) 3) as [Hc | Hc];
    [ discriminate H | ].
  destruct (unpack_succeeds text Hc) as (f1 & f2 & f3 & f4 & E).
  rewrite E in *.
  destruct (isdigit f1) eqn:D1, (isdigit f2) eqn:D2,
           (isdigit f3) eqn:D3, (isdigit f4) eqn:D4; cbn [andb negb] in H;
    try discriminate H.
  destruct (int f1) as [ v1 | e1 ] eqn:E1; cbn [bind] in H.
  2:{ injection H as <-. pose proof (int_raises _ _ E1) as ->.
      split; [ reflexivity | exists f1; cbn [In]; tauto ]. }
  destruct (int f2) as [ v2 | e2 ] eqn:E2; cbn [bind] in H.
  2:{ injection H as <-. pose proof (int_raises _ _ E2) as ->.
      split; [ reflexivity | exists f2; cbn [In]; tauto ]. }
  destruct (int f3) as [ v3 | e3 ] eqn:E3; cbn [bind] in H.
  2:{ injection H as <-. pose proof (int_raises _ _ E3) as ->.
      split; [ reflexivity | exists f3; cbn [In]; tauto ]. }
  destruct (int f4) as [ v4 | e4 ] eqn:E4; cbn [bind] in H.
  2:{ injection H as <-. pose proof (int_raises _ _ E4) as ->.
      split; [ reflexivity | exists f4; cbn [In]; tauto ]. }
  discriminate H.
Qed.

End DecoderFacts.

(** C2. The decoder raises.  In [b"1,1,\xc2\xb2,5"] the third field is the
    one character SUPERSCRIPT TWO: [isdigit] accepts it, so the digit check
    of line 93 passes all four fields, and [int] then fails on it with
    [ValueError]. *)
Theorem parse_packet_raises_on_superscript :
  let text := strip (utf8_decode_ignore packet_superscript) in
  firstn 4 (split comma text) = [[0x31]; [0x31]; [0xB2]; [0x35]]%N
  /\ isdigit [0xB2]%N = true
  /\ int [0xB2]%N = Raised ValueError
  /\ parse_packet packet_superscript = Raised ValueError.
Proof. vm_compute. repeat split; reflexivity. Qed.

(** C3. The two outcomes of the claim do not cover the decoder.  The text
    of [b"0,1,1\xc2\xb9,7\xc2\xb3"] has three commas and four fields made of
    digit characters only, yet the decoder returns neither the four
    integers nor invalid: the conversion raises [ValueError]. *)
Theorem digit_fields_without_reading :
  let text := strip (utf8_decode_ignore packet_exponents) in
  count comma text = 3%nat
  /\ Forall (fun f => isdigit f = true) (firstn 4 (split comma text))
  /\ parse_packet packet_exponents = Raised ValueError
  /\ parse_packet packet_exponents <> Returned None
  /\ (forall r, parse_packet packet_exponents <> Returned (Some r)).
Proof.
  cbv zeta. split; [ vm_compute; reflexivity | ].
  split; [ vm_compute; repeat constructor | ].
  assert (E : parse_packet packet_exponents = Raised ValueError)
    by (vm_compute; reflexivity).
  rewrite E. repeat split; intros; discriminate.
Qed.

(** In the loop the exception is not caught: one such datagram ends the
    server (through [finally], which leaves the safe state and then turns
    the servo signal off). *)
Lemma superscript_datagram_ends_the_loop (a : args) (s : locals)
    (now now' : float) :
  iteration a s (datagram packet_superscript now now')
  = Crashed ValueError (finally (pi s)).
Proof. reflexivity. Qed.

(** ** Instances on the sender's records *)

Lemma liveness_follows_valid_readings_witness :
  iteration default_args fresh (datagram packet_forward 3%Q 4%Q)
  = Running (drive default_args fresh (1, 1, 32768, 65535) 3%Q 4%Q)
  /\ last_ok (drive default_args fresh (1, 1, 32768, 65535) 3%Q 4%Q) = 3%Q.
Proof.
  assert (H : iteration default_args fresh (datagram packet_forward 3%Q 4%Q)
              = Running (drive default_args fresh (1, 1, 32768, 65535) 3%Q 4%Q))
    by (vm_compute; reflexivity).
  split; [ exact H | ].
  destruct (liveness_follows_valid_readings default_args fresh _ _ H)
    as (_ & Hvalid & _).
  apply (Hvalid packet_forward 3%Q 4%Q (1, 1, 32768, 65535) eq_refl).
  vm_compute. reflexivity.
Defined.

Lemma commands_within_range_witness :
  (0 <= expo default_args <= 1)%Q
  /\ parse_packet (firstn 256 packet_forward)
     = Returned (Some (1, 1, 32768, 65535))
  /\ exists calls,
      iteration default_args fresh (datagram packet_forward 3%Q 4%Q)
      = Running {| pi := pi fresh ++ calls; last_ok := 3%Q |}
      /\ Forall call_in_range calls.
Proof.
  assert (Hk : (0 <= expo default_args <= 1)%Q)
    by (split; vm_compute; discriminate).
  assert (Hp : parse_packet (firstn 256 packet_forward)
               = Returned (Some (1, 1, 32768, 65535)))
    by (vm_compute; reflexivity).
  split; [ exact Hk | ]. split; [ exact Hp | ].
  destruct (commands_within_range default_args fresh packet_forward
              3%Q 4%Q 1 1 32768 65535 Hk Hp)
    as (_ & _ & calls & Hrun & Hrange & _).
  exists calls. split; assumption.
Defined.

Lemma brake_button_overrides_axes_witness :
  parse_packet (firstn 256 packet_brake) = Returned (Some (1, 0, 32768, 32768))
  /\ iteration default_args fresh (datagram packet_brake 3%Q 4%Q)
     = Running {|
           pi := pi fresh
                 ++ [pigpio.Write IN1_L 1; pigpio.Write IN2_L 1;
                     pigpio.Set_PWM_dutycycle EN_L 0;
                     pigpio.Write IN1_R 1; pigpio.Write IN2_R 1;
                     pigpio.Set_PWM_dutycycle EN_R 0;
                     pigpio.Set_servo_pulsewidth SERVO_PIN
                       (servo_pulse
                          (apply_expo
                             (adc_to_unit 32768 (deadzone default_args))
                             (expo default_args)))]
                 ++ (if float_lt (failsafe default_args) (4 - 3)%Q
                     then safe_state_calls else []);
           last_ok := 3%Q |}.
Proof.
  assert (Hp : parse_packet (firstn 256 packet_brake)
               = Returned (Some (1, 0, 32768, 32768)))
    by (vm_compute; reflexivity).
  split; [ exact Hp | ].
  exact (brake_button_overrides_axes default_args fresh packet_brake
           3%Q 4%Q 1 32768 32768 Hp).
Defined.


(** The end-to-end scenarios of the sender's records. *)
Example scenario_forward :
  drive_calls default_args (1, 1, 32768, 65535) 0%Q 0%Q
  = [pigpio.Write IN1_L 1; pigpio.Write IN2_L 0;
     pigpio.Set_PWM_dutycycle EN_L 153;
     pigpio.Write IN1_R 1; pigpio.Write IN2_R 0;
     pigpio.Set_PWM_dutycycle EN_R 153;
     pigpio.Set_servo_pulsewidth SERVO_PIN 1500].
Proof. vm_compute. reflexivity. Qed.

Example scenario_brake :
  drive_calls default_args (1, 0, 32768, 32768) 0%Q 0%Q
  = [pigpio.Write IN1_L 1; pigpio.Write IN2_L 1;
     pigpio.Set_PWM_dutycycle EN_L 0;
     pigpio.Write IN1_R 1; pigpio.Write IN2_R 1;
     pigpio.Set_PWM_dutycycle EN_R 0;
     pigpio.Set_servo_pulsewidth SERVO_PIN 1500].
Proof. vm_compute. reflexivity. Qed.

Example scenario_rejected :
  parse_packet packet_malformed = Returned None
  /\ parse_packet (list_byte_of_string "1,2") = Returned None
  /\ iteration default_args fresh (datagram packet_malformed 3%Q 4%Q)
     = Running fresh.
Proof. vm_compute. repeat split; reflexivity. Qed.

Example decode_drops_ill_formed :
  utf8_decode_ignore [xe2; x82; xac; xff; x41; xc3] = [0x20AC; 0x41]%N.
Proof. vm_compute. reflexivity. Qed.

(** ** The sender's records are accepted *)

Section RoundTrip.

Context {ucd : unicodedata}.
Hypothesis rows : ascii_digit_rows ucd.

Lemma uint_chars_digits (d : Decimal.uint) : Forall ascii_digit (uint_chars d).
Proof.
  induction d; cbn [uint_chars]; constructor;
    try assumption; unfold ascii_digit; lia.
Qed.

Lemma uint_chars_nonnil (d : Decimal.uint) :
  d <> Decimal.Nil -> uint_chars d <> [].
Proof. destruct d; cbn [uint_chars]; congruence. Qed.

(** [f"{n}"] of a non-negative integer: one digit at least, digits only. *)
Lemma str_of_int_digits (n : Z) :
  0 <= n -> str_of_int n <> [] /\ Forall ascii_digit (str_of_int n).
Proof.
  destruct n as [ | p | p ]; cbn [str_of_int]; intro H.
  - split; [ discriminate | ].
    constructor; [ unfold ascii_digit; lia | constructor ].
  - split; [ apply uint_chars_nonnil, Unsigned.to_uint_nonnil
           | apply uint_chars_digits ].
  - lia.
Qed.

Lemma decimal_value_acc (d : Decimal.uint) :
  forall acc : positive,
    decimal_value (Z.pos acc) (uint_chars d)
    = Some (Z.pos (Pos.of_uint_acc d acc)).
Proof.
  induction d as [ | d IH | d IH | d IH | d IH | d IH | d IH | d IH | d IH
                   | d IH | d IH ];
    intro acc; cbn [uint_chars decimal_value Pos.of_uint_acc];
    [ reflexivity | .. ];
    match goal with
    | |- context [decimal ?c] =>
      destruct (rows c) as (_ & _ & ->); [ lia | ]
    end;
    rewrite <- IH; f_equal; lia.
Qed.

Lemma decimal_value_uint (d : Decimal.uint) :
  decimal_value 0 (uint_chars d) = Some (Z.of_N (Pos.of_uint d)).
Proof.
  induction d as [ | d IH | d IH | d IH | d IH | d IH | d IH | d IH | d IH
                   | d IH | d IH ];
    cbn [uint_chars decimal_value Pos.of_uint];
    [ reflexivity | .. ];
    match goal with
    | |- context [decimal ?c] =>
      destruct (rows c) as (_ & _ & ->); [ lia | ]
    end;
    [ exact IH | .. ];
    cbn [Z.of_N]; rewrite <- decimal_value_acc; f_equal.
Qed.

(** [int] reads back what [f"{n}"] wrote. *)
Lemma int_str_of_int (n : Z) : 0 <= n -> int (str_of_int n) = Returned n.
Proof.
  intro H. destruct (str_of_int_digits n H) as [Hne _].
  unfold int. destruct (str_of_int n) as [ | c t ] eqn:E; [ congruence | ].
  rewrite <- E. clear E Hne.
  destruct n as [ | p | p ]; cbn [str_of_int]; [ | | lia ].
  - cbn [decimal_value]. destruct (rows 0x30%N) as (_ & _ & ->); [ lia | ].
    reflexivity.
  - now rewrite decimal_value_uint, Unsigned.of_to.
Qed.

Lemma isdigit_digits (t : str) :
  t <> [] -> Forall ascii_digit t -> isdigit t = true.
Proof.
  intros Hne Hd. unfold isdigit. destruct t as [ | c t ]; [ congruence | ].
  apply forallb_forall. intros x Hx.
  rewrite Forall_forall in Hd. unfold is_digit_char.
  destruct (rows x (Hd x Hx)) as (_ & -> & _). reflexivity.
Qed.

Lemma to_N_byte_of_N (c : N) : (c < 0x100)%N -> Byte.to_N (byte_of_N c) = c.
Proof.
  intro H. unfold byte_of_N.
  destruct (Byte.of_N c) as [ b | ] eqn:E.
  - now apply Byte.to_of_N.
  - apply Byte.of_N_None_iff in E. lia.
Qed.

(** Decoding undoes the encoding of ASCII text. *)
Lemma decode_encode_ascii (t : str) :
  Forall (fun c => (c < 0x80)%N) t -> utf8_decode_ignore (encode t) = t.
Proof.
  induction 1 as [ | c t Hc _ IH ]; [ reflexivity | ].
  unfold encode in *. cbn [flat_map]. unfold utf8_encode_char.
  apply N.ltb_lt in Hc as Hb. rewrite Hb.
  cbn [app utf8_decode_ignore].
  rewrite to_N_byte_of_N by lia. rewrite Hb. f_equal. exact IH.
Qed.

Lemma lstrip_digit (c : N) (t : str) :
  ascii_digit c -> lstrip (c :: t) = c :: t.
Proof.
  intro H. cbn [lstrip]. destruct (rows c H) as (-> & _). reflexivity.
Qed.

Lemma rstrip_digit (t : str) (c : N) :
  ascii_digit c -> rstrip (t ++ [c]) = t ++ [c].
Proof.
  intro H. unfold rstrip. rewrite rev_unit, (lstrip_digit c _ H).
  cbn [rev]. now rewrite rev_involutive.
Qed.

Lemma count_app (sep : N) (t u : str) :
  count sep (t ++ u) = (count sep t + count sep u)%nat.
Proof.
  induction t as [ | c t IH ]; [ reflexivity | ].
  cbn [app count]. destruct (c =? sep)%N; cbn [Nat.add]; now rewrite IH.
Qed.

Lemma digit_not_comma (c : N) : ascii_digit c -> (c =? comma)%N = false.
Proof. unfold ascii_digit, comma. intro H. apply N.eqb_neq. lia. Qed.

Lemma count_digits (t : str) : Forall ascii_digit t -> count comma t = 0%nat.
Proof.
  induction 1 as [ | c t Hc _ IH ]; [ reflexivity | ].
  cbn [count]. now rewrite (digit_not_comma c Hc).
Qed.

Lemma split_digits (t : str) : Forall ascii_digit t -> split comma t = [t].
Proof.
  induction 1 as [ | c t Hc _ IH ]; [ reflexivity | ].
  cbn [split]. now rewrite (digit_not_comma c Hc), IH.
Qed.

Lemma split_field (f rest : str) :
  Forall ascii_digit f ->
  split comma (f ++ comma :: rest) = f :: split comma rest.
Proof.
  induction 1 as [ | c f Hc _ IH ].
  - cbn [app split]. now rewrite N.eqb_refl.
  - cbn [app split]. now rewrite (digit_not_comma c Hc), IH.
Qed.

Lemma strip_between_digits (c d : N) (u v : str) :
  ascii_digit c -> ascii_digit d ->
  strip ((c :: u) ++ v ++ [d]) = (c :: u) ++ v ++ [d].
Proof.
  intros Hc Hd. unfold strip. cbn [app]. rewrite (lstrip_digit c _ Hc).
  change (c :: u ++ v ++ [d]) with ((c :: u) ++ v ++ [d]).
  rewrite app_assoc. apply (rstrip_digit _ d Hd).
Qed.

(** Every record the sender can format from non-negative integers is read
    back by the decoder as those integers: the message has exactly three
    commas, its fields pass [isdigit], and no range is checked. *)
Lemma sender_record_accepted (b1 b2 x_val y_val : Z) :
  0 <= b1 -> 0 <= b2 -> 0 <= x_val -> 0 <= y_val ->
  parse_packet (encode (message b1 b2 x_val y_val))
  = Returned (Some (b1, b2, x_val, y_val)).
Proof.
  intros H1 H2 H3 H4.
  destruct (str_of_int_digits b1 H1) as [N1 D1].
  destruct (str_of_int_digits b2 H2) as [N2 D2].
  destruct (str_of_int_digits x_val H3) as [N3 D3].
  destruct (str_of_int_digits y_val H4) as [N4 D4].
  pose proof (int_str_of_int b1 H1) as I1.
  pose proof (int_str_of_int b2 H2) as I2.
  pose proof (int_str_of_int x_val H3) as I3.
  pose proof (int_str_of_int y_val H4) as I4.
  pose proof (isdigit_digits _ N1 D1) as G1.
  pose proof (isdigit_digits _ N2 D2) as G2.
  pose proof (isdigit_digits _ N3 D3) as G3.
  pose proof (isdigit_digits _ N4 D4) as G4.
  unfold message.
  set (f1 := str_of_int b1) in *. set (f2 := str_of_int b2) in *.
  set (f3 := str_of_int x_val) in *. set (f4 := str_of_int y_val) in *.
  clearbody f1 f2 f3 f4.
  set (msg := f1 ++ comma :: f2 ++ comma :: f3 ++ comma :: f4).
  assert (Hascii : Forall (fun c => (c < 0x80)%N) msg).
  { assert (Hd : forall f, Forall ascii_digit f ->
                           Forall (fun c => (c < 0x80)%N) f).
    { intros f Hf. eapply Forall_impl; [ | exact Hf ].
      unfold ascii_digit. intros c Hc. lia. }
    assert (Hcomma : (comma < 0x80)%N) by (unfold comma; lia).
    unfold msg.
    repeat (apply Forall_app; split; [ now apply Hd | ];
            apply Forall_cons; [ exact Hcomma | ]).
    now apply Hd. }
  assert (Hstrip : strip msg = msg).
  { destruct f1 as [ | c u ]; [ congruence | ].
    destruct (exists_last N4) as (w & d & ->).
    apply Forall_inv in D1 as Hc.
    apply Forall_app in D4 as (_ & Hd). apply Forall_inv in Hd.
    replace msg
      with ((c :: u) ++ (comma :: f2 ++ comma :: f3 ++ comma :: w) ++ [d]).
    - now apply strip_between_digits.
    - unfold msg. cbn [app]. rewrite <- !app_assoc. cbn [app].
      rewrite <- !app_assoc. cbn [app]. reflexivity. }
  assert (Hcount : count comma msg = 3%nat).
  { unfold msg.
    repeat (rewrite count_app; cbn [count]; rewrite N.eqb_refl).
    rewrite !count_digits by assumption. reflexivity. }
  assert (Hsplit : split comma msg = [f1; f2; f3; f4]).
  { unfold msg. rewrite !split_field by assumption.
    now rewrite split_digits. }
  unfold parse_packet.
  rewrite (decode_encode_ascii msg Hascii), Hstrip, Hcount, Hsplit.
  cbn [Nat.ltb Nat.leb firstn].
  rewrite G1, G2, G3, G4, I1, I2, I3, I4. reflexivity.
Qed.

End RoundTrip.

Lemma excerpt_ascii_digit_rows : ascii_digit_rows excerpt.
Proof.
  intros c Hc.
  assert (E : (c = 48 \/ c = 49 \/ c = 50 \/ c = 51 \/ c = 52 \/ c = 53
               \/ c = 54 \/ c = 55 \/ c = 56 \/ c = 57)%N) by lia.
  repeat (destruct E as [-> | E]; [ repeat split | ]).
  subst c. repeat split.
Qed.

(** ** Over-range samples *)

Section OverRange.

Local Open Scope Q_scope.



End OverRange.


(** One pass of the sender, button2 pressed, read back by the loop. *)
Example sender_scenario :
  parse_packet (firstn 256 (sender_datagram 1 0 32768 65535))
  = Returned (Some (1, 0, 32768, 65535)).
Proof. vm_compute. reflexivity. Qed.

(** ** The size of what the loop reads *)

Section Sizes.

Context {ucd : unicodedata}.








End Sizes.

(** * Further properties of the code *)

(** ** Shaping of an axis *)

Section MoreShaping.

Local Open Scope Q_scope.

Lemma square_nonneg (a : float) : 0 <= a * a.
Proof.
  destruct (Qlt_le_dec a 0) as [H | H].
  - setoid_replace (a * a) with ((- a) * (- a)) by ring.
    apply Qmult_le_0_compat; lra.
  - now apply Qmult_le_0_compat.
Qed.

(** The three regimes of [max(-1.0, min(1.0, v))]. *)
Lemma clamp_cases (v : float) :
  (v <= -1 /\ py_max (-1) (py_min 1 v) == -1)
  \/ (-1 <= v <= 1 /\ py_max (-1) (py_min 1 v) == v)
  \/ (1 <= v /\ py_max (-1) (py_min 1 v) == 1).
Proof.
  unfold py_max, py_min.
  destruct (float_lt_cases v 1) as [[-> Hv] | [-> Hv]].
  - destruct (float_lt_cases (-1) v) as [[-> Hw] | [-> Hw]].
    + right. left. split; [ lra | reflexivity ].
    + left. split; [ exact Hw | reflexivity ].
  - right. right. split; [ exact Hv | ].
    destruct (float_lt_cases (-1) 1) as [[-> Hw] | [-> Hw]];
      [ reflexivity | lra ].
Qed.


Lemma clamp_odd (v : float) :
  py_max (-1) (py_min 1 (- v)) == - py_max (-1) (py_min 1 v).
Proof.
  destruct (clamp_cases v) as [[Hv ->] | [[Hv ->] | [Hv ->]]];
    destruct (clamp_cases (- v)) as [[Hw ->] | [[Hw ->] | [Hw ->]]]; lra.
Qed.







(** X4. For an expo factor in [0, 1] the curve keeps full travel and only
    softens the response: +1 and -1 are fixed, and in the unit interval the
    output is never larger in magnitude than the input, and is non-negative
    for a non-negative input. *)
Theorem apply_expo_softens (u k : float) :
  0 <= k <= 1 -> -1 <= u <= 1 ->
  apply_expo 1 k == 1
  /\ apply_expo (-1) k == -1
  /\ Qabs (apply_expo u k) <= Qabs u
  /\ (0 <= u -> 0 <= apply_expo u k).
Proof.
  intros [Hk0 Hk1] [Hu0 Hu1]. unfold apply_expo.
  assert (Eu : u ^ 3 == u * u * u) by (simpl; ring).
  split; [ simpl; ring | ]. split; [ simpl; ring | ].
  rewrite Eu.
  assert (Hsq : 0 <= u * u <= 1)
    by (split; [ apply square_nonneg | nra ]).
  destruct Hsq as [Hs0 Hs1].
  set (s := u * u) in *.
  assert (E : (1 - k) * u + k * (s * u) == u * (1 - k + k * s)) by ring.
  assert (Hf : 0 <= 1 - k + k * s <= 1) by (split; nra).
  destruct Hf as [Hf0 Hf1]. set (f := 1 - k + k * s) in *.
  split.
  - rewrite E. rewrite Qabs_Qmult. rewrite (Qabs_pos f Hf0).
    pose proof (Qabs_nonneg u). nra.
  - intro Hp. rewrite E. nra.
Qed.

Lemma apply_expo_softens_witness :
  (0 <= EXPO <= 1) /\ (-1 <= 1 # 2 <= 1)
  /\ Qabs (apply_expo (1 # 2) EXPO) <= Qabs (1 # 2).
Proof.
  assert (Hk : 0 <= EXPO <= 1) by (split; vm_compute; discriminate).
  assert (Hu : -1 <= 1 # 2 <= 1) by (split; vm_compute; discriminate).
  split; [ exact Hk | ]. split; [ exact Hu | ].
  exact (proj1 (proj2 (proj2 (apply_expo_softens (1 # 2) EXPO Hk Hu)))).
Defined.

End MoreShaping.

(** ** Mixing and the motor commands *)

Section MoreActuators.

Local Open Scope Q_scope.

Lemma clamp_eq (v w : float) :
  v == w -> py_max (-1) (py_min 1 v) == py_max (-1) (py_min 1 w).
Proof.
  intro H.
  destruct (clamp_cases v) as [[Hv ->] | [[Hv ->] | [Hv ->]]];
    destruct (clamp_cases w) as [[Hw ->] | [[Hw ->] | [Hw ->]]]; lra.
Qed.

(** X5. The tank-drive mixing is symmetric: reversing both axes reverses
    both motors, a centred x axis drives both sides alike (straight line),
    and a centred y axis drives them opposite (turn on the spot). *)
Theorem mixing_symmetry (y_unit x_unit max_speed : float) :
  mix_left (- y_unit) (- x_unit) max_speed
  == - mix_left y_unit x_unit max_speed
  /\ mix_right (- y_unit) (- x_unit) max_speed
     == - mix_right y_unit x_unit max_speed
  /\ mix_left y_unit 0 max_speed == mix_right y_unit 0 max_speed
  /\ mix_left 0 x_unit max_speed == - mix_right 0 x_unit max_speed.
Proof.
  unfold mix_left, mix_right. repeat split.
  - rewrite (clamp_eq (- y_unit + - x_unit) (- (y_unit + x_unit)))
      by ring.
    rewrite clamp_odd. ring.
  - rewrite (clamp_eq (- y_unit - - x_unit) (- (y_unit - x_unit)))
      by ring.
    rewrite clamp_odd. ring.
  - rewrite (clamp_eq (0 + x_unit) (- (0 - x_unit))) by ring.
    rewrite clamp_odd. ring.
Qed.






End MoreActuators.

(** ** The lines after a motor or servo command *)

Section Lines.

Lemma set_motor_levels (p : pigpio.pi) (dir_a dir_b en : Z) (val : float) :
  exists la lb d,
    set_motor p dir_a dir_b en val
    = p ++ [pigpio.Write dir_a la; pigpio.Write dir_b lb;
            pigpio.Set_PWM_dutycycle en d]
    /\ ((la = 1 /\ lb = 0) \/ (la = 0 /\ lb = 1) \/ (la = 0 /\ lb = 0)).
Proof.
  unfold set_motor, pigpio.write, pigpio.set_PWM_dutycycle.
  destruct (float_lt 0%Q _); [ | destruct (float_lt _ 0%Q) ];
    do 3 eexists; rewrite <- !app_assoc; (split; [ reflexivity | ]); tauto.
Qed.

(** X8. [set_motor] never brakes: whatever the value, it leaves the two
    direction lines of its motor at (1, 0), (0, 1) or (0, 0), never both
    high, which is the state [brake] alone produces. *)
Theorem set_motor_never_brakes (p : pigpio.pi) (dir_a dir_b en : Z)
    (val : float) :
  dir_a <> dir_b ->
  let p' := set_motor p dir_a dir_b en val in
  ((pigpio.read p' dir_a = Some 1 /\ pigpio.read p' dir_b = Some 0)
   \/ (pigpio.read p' dir_a = Some 0 /\ pigpio.read p' dir_b = Some 1)
   \/ (pigpio.read p' dir_a = Some 0 /\ pigpio.read p' dir_b = Some 0))
  /\ pigpio.read (brake p dir_a dir_b en) dir_a = Some 1
  /\ pigpio.read (brake p dir_a dir_b en) dir_b = Some 1.
Proof.
  intros Hab p'. apply Z.eqb_neq in Hab as Hn.
  split.
  - destruct (set_motor_levels p dir_a dir_b en val)
      as (la & lb & d & E & Hl).
    unfold p'. rewrite E, !read_app. cbn.
    rewrite !Z.eqb_refl, Z.eqb_sym, Hn.
    destruct Hl as [[-> ->] | [[-> ->] | [-> ->]]]; tauto.
  - rewrite brake_calls, !read_app. cbn.
    rewrite !Z.eqb_refl, Z.eqb_sym, Hn. tauto.
Qed.

Lemma set_motor_never_brakes_witness :
  IN1_L <> IN2_L
  /\ pigpio.read (brake [] IN1_L IN2_L EN_L) IN1_L = Some 1.
Proof.
  assert (H : IN1_L <> IN2_L) by discriminate.
  split; [ exact H | ].
  exact (proj1 (proj2 (set_motor_never_brakes [] IN1_L IN2_L EN_L 0%Q H))).
Defined.

(** X9. A motor command touches the three lines of its own motor only:
    after [set_motor] or [brake] every other direction line, every other
    duty cycle and every servo pulse width is what it was. *)
Theorem motor_commands_frame (p : pigpio.pi) (dir_a dir_b en : Z)
    (val : float) (g : Z) :
  (g <> dir_a -> g <> dir_b ->
   pigpio.read (set_motor p dir_a dir_b en val) g = pigpio.read p g
   /\ pigpio.read (brake p dir_a dir_b en) g = pigpio.read p g)
  /\ (g <> en ->
      pigpio.get_PWM_dutycycle (set_motor p dir_a dir_b en val) g
      = pigpio.get_PWM_dutycycle p g
      /\ pigpio.get_PWM_dutycycle (brake p dir_a dir_b en) g
         = pigpio.get_PWM_dutycycle p g)
  /\ pigpio.get_servo_pulsewidth (set_motor p dir_a dir_b en val) g
     = pigpio.get_servo_pulsewidth p g
  /\ pigpio.get_servo_pulsewidth (brake p dir_a dir_b en) g
     = pigpio.get_servo_pulsewidth p g.
Proof.
  destruct (set_motor_levels p dir_a dir_b en val) as (la & lb & d & E & _).
  rewrite E, brake_calls.
  rewrite !read_app, !get_PWM_dutycycle_app, !get_servo_pulsewidth_app.
  cbn.
  split; [ | split; [ | split; reflexivity ] ].
  - intros Ha Hb. apply not_eq_sym, Z.eqb_neq in Ha, Hb.
    now rewrite Ha, Hb.
  - intro He. apply not_eq_sym, Z.eqb_neq in He. now rewrite He.
Qed.

Local Open Scope Q_scope.




End Lines.

(** ** More on the decoder *)

Section MoreDecoder.

Context {ucd : unicodedata}.


Lemma int_decimal_value (f : str) :
  f <> [] ->
  int f = match decimal_value 0 f with
          | Some v => Returned v
          | None => Raised ValueError
          end.
Proof. destruct f; [ congruence | reflexivity ]. Qed.



End MoreDecoder.

(** ** ASCII records *)

Section AsciiRecords.

Context {ucd : unicodedata}.
Hypothesis rows : ascii_digit_rows ucd.
Hypothesis comma_row : whitespace comma = false.

Lemma lstrip_blanks (ws t : str) :
  Forall ascii_blank ws -> lstrip (ws ++ t) = lstrip t.
Proof.
  induction 1 as [ | c ws [_ Hc] _ IH ]; [ reflexivity | ].
  cbn [app lstrip]. now rewrite Hc.
Qed.

Lemma lstrip_marks (t u : str) : Forall ascii_mark t -> lstrip (t ++ u) = lstrip u \/ lstrip (t ++ u) = t ++ u.
Proof.
  destruct 1 as [ | c t [_ Hc] _ ]; [ now left | right ].
  cbn [app lstrip]. now rewrite Hc.
Qed.

(** [strip] removes the blanks around a text without blanks. *)
Lemma strip_around (ws1 ws2 t : str) :
  Forall ascii_blank ws1 -> Forall ascii_blank ws2 -> Forall ascii_mark t ->
  strip (ws1 ++ t ++ ws2) = t.
Proof.
  intros H1 H2 Ht. unfold strip, rstrip.
  rewrite (lstrip_blanks ws1 _ H1).
  assert (Hb : lstrip ws2 = []).
  { rewrite <- (app_nil_r ws2). now rewrite (lstrip_blanks ws2 [] H2). }
  assert (Hr : rev (lstrip (rev (t ++ ws2))) = t).
  { rewrite rev_app_distr, lstrip_blanks by now apply Forall_rev.
    destruct (lstrip_marks (rev t) [] (Forall_rev Ht)) as [E | E];
      rewrite app_nil_r in E.
    - destruct (rev t) as [ | c r ] eqn:Er.
      + apply (f_equal (@rev N)) in Er. rewrite rev_involutive in Er.
        now subst.
      + apply Forall_rev in Ht. rewrite Er in Ht. inversion Ht as [ | ? ? [_ Hc] ].
        cbn [lstrip]. rewrite Hc, <- Er. apply rev_involutive.
    - rewrite E. apply rev_involutive. }
  destruct (lstrip_marks t ws2 Ht) as [E | E]; rewrite E.
  - destruct t as [ | c t ].
    + now rewrite Hb.
    + inversion Ht as [ | ? ? [_ Hc] ]. subst.
      cbn [app lstrip] in E. rewrite Hc in E.
      rewrite <- E. exact Hr.
  - exact Hr.
Qed.

Lemma digits_are_marks (f : str) : Forall ascii_digit f -> Forall ascii_mark f.
Proof.
  intro H. eapply Forall_impl; [ | exact H ].
  intros c Hc. split; [ unfold ascii_digit in Hc; lia | ].
  now destruct (rows c Hc).
Qed.

Lemma comma_is_mark : ascii_mark comma.
Proof. split; [ unfold comma; lia | exact comma_row ]. Qed.

Lemma ascii_value_acc (f : str) :
  Forall ascii_digit f ->
  forall acc,
    decimal_value acc f
    = Some (fold_left (fun a c => a * 10 + (Z.of_N c - 48)) f acc).
Proof.
  induction 1 as [ | c f Hc _ IH ]; intro acc; [ reflexivity | ].
  cbn [decimal_value fold_left].
  destruct (rows c Hc) as (_ & _ & ->). rewrite IH.
  do 2 f_equal. unfold ascii_digit in Hc. lia.
Qed.

Lemma int_ascii_digits (f : str) :
  Forall ascii_digit f -> nonempty f = true ->
  int f = Returned (ascii_value f).
Proof.
  intros Hd Hn. rewrite int_decimal_value by (destruct f; discriminate).
  now rewrite (ascii_value_acc f Hd).
Qed.

Lemma isdigit_ascii_digits (f : str) :
  Forall ascii_digit f -> isdigit f = nonempty f.
Proof.
  intro Hd. destruct f as [ | c f ]; [ reflexivity | ].
  apply (isdigit_digits rows); [ discriminate | exact Hd ].
Qed.

(** What the decoder makes of an ASCII record: blanks around it, four
    fields of digits (each possibly empty), and perhaps a fourth comma
    followed by anything printable. *)
Lemma ascii_record_parsed (ws1 ws2 f1 f2 f3 f4 tail : str) :
  Forall ascii_blank ws1 -> Forall ascii_blank ws2 ->
  Forall ascii_digit f1 -> Forall ascii_digit f2 ->
  Forall ascii_digit f3 -> Forall ascii_digit f4 ->
  tail = [] \/ (exists extra, tail = comma :: extra /\ Forall ascii_mark extra) ->
  parse_packet
    (encode (ws1 ++ (f1 ++ comma :: f2 ++ comma :: f3 ++ comma :: f4 ++ tail)
             ++ ws2))
  = if nonempty f1 && nonempty f2 && nonempty f3 && nonempty f4
    then Returned (Some (ascii_value f1, ascii_value f2,
                         ascii_value f3, ascii_value f4))
    else Returned None.
Proof.
  intros W1 W2 D1 D2 D3 D4 Htail.
  set (core := f1 ++ comma :: f2 ++ comma :: f3 ++ comma :: f4 ++ tail).
  assert (Mtail : Forall ascii_mark tail).
  { destruct Htail as [-> | (extra & -> & He)]; [ constructor | ].
    constructor; [ apply comma_is_mark | exact He ]. }
  assert (Mcore : Forall ascii_mark core).
  { unfold core.
    repeat (apply Forall_app; split; [ now apply digits_are_marks | ];
            try (apply Forall_cons; [ apply comma_is_mark | ])).
    exact Mtail. }
  assert (Hascii : Forall (fun c => (c < 0x80)%N) (ws1 ++ core ++ ws2)).
  { apply Forall_app; split; [ | apply Forall_app; split ];
      [ eapply Forall_impl; [ | exact W1 ]
      | eapply Forall_impl; [ | exact Mcore ]
      | eapply Forall_impl; [ | exact W2 ] ];
      now intros c [Hc _]. }
  assert (Hsplit4 : exists rest, split comma (f4 ++ tail) = f4 :: rest).
  { destruct Htail as [-> | (extra & -> & _)].
    - exists []. rewrite app_nil_r. now apply split_digits.
    - eexists. now apply split_field. }
  destruct Hsplit4 as (rest & Hsplit4).
  assert (Hsplit : firstn 4 (split comma core) = [f1; f2; f3; f4]).
  { unfold core. rewrite !split_field by assumption.
    rewrite Hsplit4. reflexivity. }
  assert (Hcount : (count comma core <? 3)%nat = false).
  { apply Nat.ltb_ge. pose proof (split_length comma core) as L.
    assert (L4 : (4 <= List.length (split comma core))%nat).
    { unfold core. rewrite !split_field by assumption.
      rewrite Hsplit4. cbn [List.length]. lia. }
    lia. }
  unfold parse_packet.
  rewrite (decode_encode_ascii _ Hascii), (strip_around _ _ _ W1 W2 Mcore).
  rewrite Hcount, Hsplit.
  rewrite !isdigit_ascii_digits by assumption.
  destruct (nonempty f1) eqn:N1, (nonempty f2) eqn:N2,
           (nonempty f3) eqn:N3, (nonempty f4) eqn:N4;
    cbn [andb negb]; try reflexivity.
  rewrite !int_ascii_digits by assumption. reflexivity.
Qed.

Lemma ascii_value_str_of_int (n : Z) :
  0 <= n -> ascii_value (str_of_int n) = n /\ nonempty (str_of_int n) = true.
Proof.
  intro H. destruct (str_of_int_digits n H) as [Hne Hd].
  assert (Hn : nonempty (str_of_int n) = true)
    by (destruct (str_of_int n); [ congruence | reflexivity ]).
  split; [ | exact Hn ].
  pose proof (int_str_of_int rows n H) as E.
  rewrite (int_ascii_digits _ Hd Hn) in E. now injection E.
Qed.



(** X15. Blanks around a record are harmless: the sender's record of four
    non-negative integers is read as itself when ASCII blanks (a newline, a
    carriage return, spaces) precede or follow it. *)
Theorem blanks_around_tolerated (ws1 ws2 : str) (b1 b2 x_val y_val : Z) :
  0 <= b1 -> 0 <= b2 -> 0 <= x_val -> 0 <= y_val ->
  Forall ascii_blank ws1 -> Forall ascii_blank ws2 ->
  parse_packet (encode (ws1 ++ message b1 b2 x_val y_val ++ ws2))
  = Returned (Some (b1, b2, x_val, y_val)).
Proof.
  intros H1 H2 H3 H4 W1 W2.
  destruct (str_of_int_digits b1 H1) as [_ D1].
  destruct (str_of_int_digits b2 H2) as [_ D2].
  destruct (str_of_int_digits x_val H3) as [_ D3].
  destruct (str_of_int_digits y_val H4) as [_ D4].
  destruct (ascii_value_str_of_int b1 H1) as [V1 N1].
  destruct (ascii_value_str_of_int b2 H2) as [V2 N2].
  destruct (ascii_value_str_of_int x_val H3) as [V3 N3].
  destruct (ascii_value_str_of_int y_val H4) as [V4 N4].
  pose proof (ascii_record_parsed ws1 ws2 _ _ _ _ []
                W1 W2 D1 D2 D3 D4 (or_introl eq_refl)) as H.
  rewrite N1, N2, N3, N4, V1, V2, V3, V4 in H. cbn [andb] in H.
  rewrite app_nil_r in H. exact H.
Qed.

End AsciiRecords.



Lemma blanks_around_tolerated_witness :
  parse_packet (list_byte_of_string " 1,0,32768,65535" ++ [x0d; x0a])
  = Returned (Some (1, 0, 32768, 65535)).
Proof.
  assert (W1 : Forall ascii_blank [32]%N) by (repeat constructor; cbn; lia).
  assert (W2 : Forall ascii_blank [13; 10]%N)
    by (repeat constructor; cbn; lia).
  exact (blanks_around_tolerated excerpt_ascii_digit_rows eq_refl
           [32]%N [13; 10]%N 1 0 32768 65535
           ltac:(lia) ltac:(lia) ltac:(lia) ltac:(lia) W1 W2).
Defined.

(** ** From the sender to the loop *)

Section SenderToLoop.

Lemma of_uint_acc_lower (d : Decimal.uint) :
  forall acc : positive,
    Z.pos acc * 10 ^ Z.of_nat (Decimal.nb_digits d)
    <= Z.pos (Pos.of_uint_acc d acc).
Proof.
  induction d as [ | d IH | d IH | d IH | d IH | d IH | d IH | d IH | d IH
                   | d IH | d IH ];
    intro acc; cbn [Decimal.nb_digits Pos.of_uint_acc];
    [ cbn; lia | .. ];
    rewrite Nat2Z.inj_succ, Z.pow_succ_r by lia;
    (eapply Z.le_trans; [ | apply IH ]);
    assert (0 < 10 ^ Z.of_nat (Decimal.nb_digits d))
      by (apply Z.pow_pos_nonneg; lia);
    nia.
Qed.

Lemma uint_chars_length (d : Decimal.uint) :
  List.length (uint_chars d) = Decimal.nb_digits d.
Proof. induction d; cbn [uint_chars List.length Decimal.nb_digits]; congruence. Qed.

Lemma to_uint_head (p : positive) :
  Pos.to_uint p <> Decimal.Nil
  /\ forall d, Pos.to_uint p <> Decimal.D0 d.
Proof.
  split; [ apply Unsigned.to_uint_nonnil | ].
  intros d E.
  pose proof (Unsigned.to_of (Pos.to_uint p)) as H.
  rewrite Unsigned.of_to in H. cbn [N.to_uint] in H.
  assert (Hz : Decimal.nzhead (Pos.to_uint p) <> Decimal.Nil).
  { intro Hn. apply DecimalFacts.unorm_0 in Hn. rewrite <- H in Hn.
    now apply (Unsigned.to_uint_nonzero p). }
  rewrite (DecimalFacts.unorm_nzhead _ Hz) in H.
  apply (DecimalFacts.nzhead_nonzero (Pos.to_uint p) d). congruence.
Qed.

(** A positive number below [10^k] is written with at most [k] digits. *)
Lemma to_uint_digits (p : positive) (k : nat) :
  Z.pos p < 10 ^ Z.of_nat k -> (Decimal.nb_digits (Pos.to_uint p) <= k)%nat.
Proof.
  intro H. destruct (to_uint_head p) as [Hnil H0].
  pose proof (Unsigned.of_to p) as E.
  assert (L : 10 ^ (Z.of_nat (Decimal.nb_digits (Pos.to_uint p)) - 1)
              <= Z.pos p).
  { destruct (Pos.to_uint p) as [ | d | d | d | d | d | d | d | d | d | d ];
      [ congruence | exfalso; now apply (H0 d) | .. ];
      cbn [Pos.of_uint] in E; injection E as E;
      cbn [Decimal.nb_digits];
      rewrite Nat2Z.inj_succ;
      replace (Z.succ (Z.of_nat (Decimal.nb_digits d)) - 1)
        with (Z.of_nat (Decimal.nb_digits d)) by lia;
      rewrite <- E;
      (eapply Z.le_trans; [ | apply of_uint_acc_lower ]);
      assert (0 < 10 ^ Z.of_nat (Decimal.nb_digits d))
        by (apply Z.pow_pos_nonneg; lia);
      nia. }
  destruct (Nat.le_gt_cases (Decimal.nb_digits (Pos.to_uint p)) k)
    as [Hk | Hk]; [ exact Hk | exfalso ].
  assert (10 ^ Z.of_nat k
          <= 10 ^ (Z.of_nat (Decimal.nb_digits (Pos.to_uint p)) - 1))
    by (apply Z.pow_le_mono_r; lia).
  lia.
Qed.

Lemma str_of_int_length (n : Z) (k : nat) :
  0 <= n < 10 ^ Z.of_nat k -> (List.length (str_of_int n) <= Nat.max 1 k)%nat.
Proof.
  intros [H0 H1]. destruct n as [ | p | p ]; cbn [str_of_int]; [ | | lia ].
  - cbn [List.length]. lia.
  - rewrite uint_chars_length. pose proof (to_uint_digits p k H1). lia.
Qed.

Lemma encode_ascii_length (t : str) :
  Forall (fun c => (c < 0x80)%N) t -> List.length (encode t) = List.length t.
Proof.
  induction 1 as [ | c t Hc _ IH ]; [ reflexivity | ].
  unfold encode in *. cbn [flat_map]. unfold utf8_encode_char at 1.
  apply N.ltb_lt in Hc. rewrite Hc. cbn [app List.length]. now rewrite IH.
Qed.

Lemma message_ascii (b1 b2 x_val y_val : Z) :
  0 <= b1 -> 0 <= b2 -> 0 <= x_val -> 0 <= y_val ->
  Forall (fun c => (c < 0x80)%N) (message b1 b2 x_val y_val).
Proof.
  intros H1 H2 H3 H4.
  assert (Hd : forall n, 0 <= n ->
                 Forall (fun c => (c < 0x80)%N) (str_of_int n)).
  { intros n Hn. destruct (str_of_int_digits n Hn) as [_ D].
    eapply Forall_impl; [ | exact D ].
    unfold ascii_digit. intros c Hc. lia. }
  assert (Hcomma : (comma < 0x80)%N) by (unfold comma; lia).
  unfold message.
  repeat (apply Forall_app; split; [ now apply Hd | ];
          apply Forall_cons; [ exact Hcomma | ]).
  now apply Hd.
Qed.

(** X17. What the sender formats, the loop reads.  For any levels of the
    two buttons and any two 16-bit ADC samples, the sender's datagram is at
    most 15 bytes long, so the 256-byte receive buffer never truncates it,
    and the loop acts on the reading made of the two button codes (0 for a
    low level, 1 otherwise) and the two samples. *)
Theorem sender_datagram_drives {ucd : unicodedata} (a : args) (s : locals)
    (button1 button2 x_val y_val : Z) (now now' : float) :
  ascii_digit_rows ucd ->
  0 <= x_val <= 65535 -> 0 <= y_val <= 65535 ->
  let b1 := if button1 =? 0 then 0 else 1 in
  let b2 := if button2 =? 0 then 0 else 1 in
  (List.length (sender_datagram button1 button2 x_val y_val) <= 15)%nat
  /\ iteration a s
       (datagram (sender_datagram button1 button2 x_val y_val) now now')
     = Running (drive a s (b1, b2, x_val, y_val) now now').
Proof.
  intros rows Hx Hy b1 b2. unfold sender_datagram. fold b1 b2.
  assert (Hb1 : 0 <= b1 < 10 ^ Z.of_nat 1)
    by (unfold b1; destruct (button1 =? 0); cbn; lia).
  assert (Hb2 : 0 <= b2 < 10 ^ Z.of_nat 1)
    by (unfold b2; destruct (button2 =? 0); cbn; lia).
  assert (Hx5 : 0 <= x_val < 10 ^ Z.of_nat 5) by (cbn; lia).
  assert (Hy5 : 0 <= y_val < 10 ^ Z.of_nat 5) by (cbn; lia).
  assert (L : (List.length (encode (message b1 b2 x_val y_val)) <= 15)%nat).
  { rewrite encode_ascii_length by (apply message_ascii; lia).
    unfold message. rewrite !length_app. cbn [List.length].
    rewrite !length_app. cbn [List.length]. rewrite !length_app.
    cbn [List.length].
    pose proof (str_of_int_length b1 1 Hb1).
    pose proof (str_of_int_length b2 1 Hb2).
    pose proof (str_of_int_length x_val 5 Hx5).
    pose proof (str_of_int_length y_val 5 Hy5). lia. }
  split; [ exact L | ].
  unfold iteration. rewrite firstn_all2 by lia.
  rewrite (sender_record_accepted rows) by lia. reflexivity.
Qed.

End SenderToLoop.

Lemma sender_datagram_drives_witness :
  ascii_digit_rows excerpt
  /\ 0 <= 40000 <= 65535
  /\ iteration default_args fresh (datagram (sender_datagram 0 1 40000 0) 3%Q 4%Q)
     = Running (drive default_args fresh (0, 1, 40000, 0) 3%Q 4%Q).
Proof.
  assert (Hx : 0 <= 40000 <= 65535) by lia.
  assert (Hy : 0 <= 0 <= 65535) by lia.
  split; [ exact excerpt_ascii_digit_rows | ]. split; [ exact Hx | ].
  exact (proj2 (sender_datagram_drives default_args fresh 0 1 40000 0 3%Q 4%Q
                  excerpt_ascii_digit_rows Hx Hy)).
Defined.



(** ** Runs of the loop *)

Section Runs.

Context {ucd : unicodedata}.
Variable a : args.

Lemma finally_calls (p : pigpio.pi) :
  finally p
  = p ++ safe_state_calls
      ++ [pigpio.Set_servo_pulsewidth SERVO_PIN 0; pigpio.Stop].
Proof.
  unfold finally, pigpio.stop, pigpio.set_servo_pulsewidth.
  now rewrite stop_all_calls, <- !app_assoc.
Qed.

(** An iteration only adds calls. *)
Lemma iteration_extends (s : locals) (e : tick) :
  exists calls, handle (iteration a s e) = pi s ++ calls.
Proof.
  destruct e as [now | data now now' | ]; cbn [iteration].
  - destruct (float_lt _ _); cbn [handle pi].
    + eexists. apply stop_all_calls.
    + exists []. now rewrite app_nil_r.
  - destruct (parse_packet _) as [[r | ] | ex]; cbn [handle].
    + eexists. apply drive_appends.
    + exists []. now rewrite app_nil_r.
    + eexists. apply finally_calls.
  - cbn [handle]. eexists. apply finally_calls.
Qed.

(** The loop stops at the first tick that ends it, and only there. *)
Lemma loop_stops (ticks : list tick) :
  forall s o,
    loop a s ticks = o -> (forall s', o <> Running s') ->
    exists before e after s1,
      ticks = before ++ e :: after
      /\ loop a s before = Running s1
      /\ iteration a s1 e = o
      /\ exists calls, pi s1 = pi s ++ calls.
Proof.
  induction ticks as [ | e ticks IH ]; intros s o H Ho.
  - cbn [loop] in H. subst o. now contradiction (Ho s).
  - cbn [loop] in H. destruct (iteration a s e) as [s1 | p | ex p] eqn:E.
    + destruct (IH s1 o H Ho) as (before & e' & after & s2 & -> & Hl & Hi
                                  & calls & Hc).
      exists (e :: before), e', after, s2.
      split; [ reflexivity | ]. split; [ cbn [loop]; now rewrite E | ].
      split; [ exact Hi | ].
      destruct (iteration_extends s e) as (c1 & Hc1).
      rewrite E in Hc1. cbn [handle] in Hc1.
      exists (c1 ++ calls). now rewrite Hc, Hc1, app_assoc.
    + exists [], e, ticks, s. subst o.
      split; [ reflexivity | ]. split; [ reflexivity | ].
      split; [ exact E | ]. exists []. now rewrite app_nil_r.
    + exists [], e, ticks, s. subst o.
      split; [ reflexivity | ]. split; [ reflexivity | ].
      split; [ exact E | ]. exists []. now rewrite app_nil_r.
Qed.

(** X18. The loop always leaves things safe.  However a run of the loop
    ends, by an interrupt or by an exception of the decoder, the last calls
    made are those of [finally]: both motors braked, the servo signal
    switched off and the connection released; the ticks after the ending
    one are never looked at. *)
Theorem loop_always_leaves_safe (s : locals) (ticks : list tick)
    (p : pigpio.pi) :
  loop a s ticks = Exited p \/ (exists ex, loop a s ticks = Crashed ex p) ->
  exists before e after calls,
    ticks = before ++ e :: after
    /\ (forall later, loop a s (before ++ e :: later) = loop a s ticks)
    /\ p = (pi s ++ calls) ++ safe_state_calls
           ++ [pigpio.Set_servo_pulsewidth SERVO_PIN 0; pigpio.Stop]
    /\ pigpio.read p IN1_L = Some 1 /\ pigpio.read p IN2_L = Some 1
    /\ pigpio.get_PWM_dutycycle p EN_L = Some 0
    /\ pigpio.read p IN1_R = Some 1 /\ pigpio.read p IN2_R = Some 1
    /\ pigpio.get_PWM_dutycycle p EN_R = Some 0
    /\ pigpio.get_servo_pulsewidth p SERVO_PIN = Some 0.
Proof.
  intro H.
  assert (Ho : exists o, loop a s ticks = o /\ handle o = p
                         /\ forall s', o <> Running s').
  { destruct H as [H | [ex H]]; eexists; (split; [ exact H | ]);
      split; try reflexivity; discriminate. }
  destruct Ho as (o & Hl & Hp & Hn).
  destruct (loop_stops ticks s o Hl Hn)
    as (before & e & after & s1 & -> & Hb & Hi & calls & Hc).
  exists before, e, after, calls.
  split; [ reflexivity | ].
  assert (Happ : forall rest, loop a s (before ++ e :: rest) = o).
  { intro rest. clear - Hb Hi Hn. revert s Hb.
    induction before as [ | e0 before IH ]; intros s Hb.
    - cbn [loop app] in *. injection Hb as ->. rewrite Hi.
      destruct o as [s2 | q | ex q];
        [ now contradiction (Hn s2) | reflexivity | reflexivity ].
    - cbn [loop app] in *. destruct (iteration a s e0); try discriminate Hb.
      now apply IH. }
  split; [ intro later; now rewrite !Happ | ].
  assert (Ef : p = finally (pi s1)).
  { rewrite <- Hp, <- Hi. clear - Hi Hn.
    destruct e as [now | data now now' | ]; cbn [iteration] in *.
    - destruct (float_lt _ _); subst o; exfalso; eapply Hn; reflexivity.
    - destruct (parse_packet _) as [[r | ] | ex]; subst o;
        try reflexivity; exfalso; eapply Hn; reflexivity.
    - reflexivity. }
  rewrite Ef, finally_calls, Hc.
  split; [ reflexivity | ].
  rewrite !read_app, !get_PWM_dutycycle_app, !get_servo_pulsewidth_app.
  cbn. repeat split; reflexivity.
Qed.

End Runs.

Lemma loop_always_leaves_safe_witness :
  loop default_args fresh
    [datagram packet_forward 0%Q 0%Q; interrupt; datagram packet_forward 1%Q 1%Q]
  = Exited (finally (pi (drive default_args fresh (1, 1, 32768, 65535) 0%Q 0%Q)))
  /\ pigpio.get_servo_pulsewidth
       (finally (pi (drive default_args fresh (1, 1, 32768, 65535) 0%Q 0%Q)))
       SERVO_PIN = Some 0.
Proof.
  assert (H : loop default_args fresh
                [datagram packet_forward 0%Q 0%Q; interrupt;
                 datagram packet_forward 1%Q 1%Q]
              = Exited (finally (pi (drive default_args fresh
                                       (1, 1, 32768, 65535) 0%Q 0%Q))))
    by (vm_compute; reflexivity).
  split; [ exact H | ].
  destruct (loop_always_leaves_safe default_args fresh _ _ (or_introl H))
    as (_ & _ & _ & _ & _ & _ & _ & _ & _ & _ & _ & _ & _ & Hs).
  exact Hs.
Defined.

(** ** What the script sends to the driver *)

Section WellFormed.

Context {ucd : unicodedata}.
Variable a : args.

Ltac well_formed_calls :=
  repeat (apply Forall_cons;
          [ cbn [call_well_formed In]; intuition (reflexivity || lia) | ]);
  try apply Forall_nil.

Lemma safe_state_calls_well_formed :
  Forall (call_well_formed (pwm_freq a)) safe_state_calls.
Proof. unfold safe_state_calls. well_formed_calls. Qed.

Lemma setup_well_formed : Forall (call_well_formed (pwm_freq a)) (setup a []).
Proof.
  cbv [setup fold_left pigpio.write pigpio.set_mode pigpio.set_PWM_frequency
       pigpio.set_PWM_dutycycle pigpio.set_servo_pulsewidth app].
  well_formed_calls.
Qed.

Lemma finally_well_formed (p : pigpio.pi) :
  Forall (call_well_formed (pwm_freq a)) p ->
  Forall (call_well_formed (pwm_freq a)) (finally p).
Proof.
  intro H. rewrite finally_calls. apply Forall_app. split; [ exact H | ].
  apply Forall_app. split; [ apply safe_state_calls_well_formed | ].
  well_formed_calls.
Qed.

Lemma set_motor_well_formed (p : pigpio.pi) (dir_a dir_b en : Z)
    (val : float) :
  In dir_a [IN1_L; IN2_L; IN1_R; IN2_R] ->
  In dir_b [IN1_L; IN2_L; IN1_R; IN2_R] ->
  In en [EN_L; EN_R] ->
  Forall (call_well_formed (pwm_freq a)) p ->
  Forall (call_well_formed (pwm_freq a)) (set_motor p dir_a dir_b en val).
Proof.
  intros Ha Hb He Hp.
  destruct (set_motor_calls p dir_a dir_b en val) as (la & lb & E).
  destruct (set_motor_levels p dir_a dir_b en val)
    as (la' & lb' & d & E' & Hl).
  rewrite E in E'. apply app_inv_head in E'.
  injection E' as -> -> _. rewrite E.
  apply Forall_app. split; [ exact Hp | ].
  repeat apply Forall_cons; try apply Forall_nil; cbn [call_well_formed].
  - split; [ exact Ha | lia ].
  - split; [ exact Hb | lia ].
  - split; [ exact He | apply motor_duty_bounds ].
Qed.

Lemma drive_well_formed (s : locals) (r : reading) (now now' : float) :
  Forall (call_well_formed (pwm_freq a)) (pi s) ->
  Forall (call_well_formed (pwm_freq a)) (pi (drive a s r now now')).
Proof.
  intro Hp. destruct r as [[[b1 b2] x_raw] y_raw]. unfold drive. cbn [pi].
  match goal with
  | |- Forall _ (if ?c then stop_all ?q else ?q) =>
    assert (Hq : Forall (call_well_formed (pwm_freq a)) q);
      [ | destruct c; [ | exact Hq ] ]
  end.
  - unfold servo_from_x, pigpio.set_servo_pulsewidth.
    apply Forall_app. split.
    + destruct (b2 =? 0).
      * rewrite !brake_calls, <- app_assoc.
        apply Forall_app. split; [ exact Hp | ]. cbn [app].
        well_formed_calls.
      * apply set_motor_well_formed; cbn [In]; try tauto.
        apply set_motor_well_formed; cbn [In]; tauto.
    + apply Forall_cons; [ | apply Forall_nil ].
      cbn [call_well_formed]. split; [ reflexivity | right ].
      apply servo_pulse_bounds.
  - rewrite stop_all_calls. apply Forall_app.
    split; [ exact Hq | apply safe_state_calls_well_formed ].
Qed.

Lemma iteration_well_formed (s : locals) (e : tick) :
  Forall (call_well_formed (pwm_freq a)) (pi s) ->
  Forall (call_well_formed (pwm_freq a)) (handle (iteration a s e)).
Proof.
  intro Hp. destruct e as [now | data now now' | ]; cbn [iteration].
  - destruct (float_lt _ _); cbn [handle pi]; [ | exact Hp ].
    rewrite stop_all_calls. apply Forall_app.
    split; [ exact Hp | apply safe_state_calls_well_formed ].
  - destruct (parse_packet _) as [[r | ] | ex]; cbn [handle].
    + now apply drive_well_formed.
    + exact Hp.
    + now apply finally_well_formed.
  - cbn [handle]. now apply finally_well_formed.
Qed.

Lemma loop_well_formed (ticks : list tick) :
  forall s,
  Forall (call_well_formed (pwm_freq a)) (pi s) ->
  Forall (call_well_formed (pwm_freq a)) (handle (loop a s ticks)).
Proof.
  induction ticks as [ | e ticks IH ]; intros s Hs; cbn [loop].
  - exact Hs.
  - pose proof (iteration_well_formed s e Hs) as Hi.
    destruct (iteration a s e) as [s1 | p | ex p]; cbn [handle] in *.
    + now apply IH.
    + exact Hi.
    + exact Hi.
Qed.

(** X19. Whatever arrives on the socket and whatever the options are, the
    script only ever makes well-formed calls: on its seven configured
    lines, with levels 0 or 1 on the direction lines, duty cycles within
    0..255 on the enable lines, and servo pulse widths within 500..2500 us
    or 0 (signal off, at shutdown). *)
Theorem main_calls_well_formed (connected : bool) (start : float)
    (ticks : list tick) :
  Forall (call_well_formed (pwm_freq a)) (handle (main a connected start ticks)).
Proof.
  unfold main. destruct connected; cbn [negb]; [ | constructor ].
  apply loop_well_formed. cbn [pi]. apply setup_well_formed.
Qed.

End WellFormed.

(** ** Edges of one iteration *)

Section IterationEdges.

Context {ucd : unicodedata}.
Variable a : args.

(** X20. The barrier of line 190 has the last word.  When the clock has
    moved by more than the failsafe window between lines 170 and 190 (as it
    always has under a negative [--failsafe]), a valid reading still
    refreshes the liveness stamp, but the iteration ends in the safe state
    whatever the reading asked for; otherwise the pulse width of the
    reading is what the servo line is left with. *)
Theorem barrier_has_last_word (s : locals) (r : reading) (now now' : float) :
  let s' := drive a s r now now' in
  let x_unit :=
    apply_expo (adc_to_unit (snd (fst r)) (deadzone a)) (expo a) in
  last_ok s' = now
  /\ ((failsafe a < now' - now)%Q -> in_safe_state (pi s'))
  /\ ((now' - now <= failsafe a)%Q ->
      pigpio.get_servo_pulsewidth (pi s') SERVO_PIN
      = Some (servo_pulse x_unit)).
Proof.
  intros s' x_unit. unfold s'.
  split; [ apply drive_last_ok | ].
  destruct r as [[[b1 b2] x_raw] y_raw]. cbn [fst snd] in x_unit.
  unfold drive. cbn [pi]. fold x_unit.
  split; intro H.
  - apply float_lt_true in H. rewrite H. apply stop_all_safe.
  - apply float_lt_false in H. rewrite H.
    rewrite servo_from_x_calls, get_servo_pulsewidth_app.
    reflexivity.
Qed.

(** X21. Only equality with 0 matters for a button: every non-zero code is
    "released", so a reading with any non-zero button codes is acted upon
    exactly like the reading with both codes 1. *)
Theorem nonzero_button_is_released (s : locals) (b1 b2 x_raw y_raw : Z)
    (now now' : float) :
  b1 <> 0 -> b2 <> 0 ->
  drive a s (b1, b2, x_raw, y_raw) now now'
  = drive a s (1, 1, x_raw, y_raw) now now'.
Proof.
  intros H1 H2. apply Z.eqb_neq in H1, H2.
  unfold drive. rewrite H1, H2. change (1 =? 0) with false. reflexivity.
Qed.



(** X23. The power-on state is coasting: whatever the lines carried before,
    after the GPIO setup of [main] both motors have their direction lines
    low and zero duty (not braked), and the servo is at 1500 us. *)
Theorem setup_coasts (p : pigpio.pi) : coasting (setup a p).
Proof.
  assert (E : setup a p = p ++ setup a []).
  { cbv [setup fold_left pigpio.write pigpio.set_mode
         pigpio.set_PWM_frequency pigpio.set_PWM_dutycycle
         pigpio.set_servo_pulsewidth].
    rewrite <- !app_assoc. reflexivity. }
  rewrite E. unfold coasting.
  rewrite !read_app, !get_PWM_dutycycle_app, !get_servo_pulsewidth_app.
  cbn. repeat split; reflexivity.
Qed.

(** X24. The liveness stamp of a run is either the one it started with or
    the line-170 clock of a datagram of the run that parsed. *)
Theorem last_ok_provenance (ticks : list tick) :
  forall s s',
    loop a s ticks = Running s' ->
    last_ok s' = last_ok s
    \/ exists data now now' r,
        In (datagram data now now') ticks
        /\ parse_packet (firstn 256 data) = Returned (Some r)
        /\ last_ok s' = now.
Proof.
  induction ticks as [ | e ticks IH ]; intros s s' H; cbn [loop] in H.
  - injection H as <-. now left.
  - destruct (iteration a s e) as [s1 | p | ex p] eqn:E; try discriminate H.
    destruct (IH s1 s' H) as [Hk | (data & now & now' & r & Hin & Hp & Hl)].
    + rewrite Hk.
      destruct e as [now | data now now' | ]; cbn [iteration] in E.
      * left. destruct (float_lt _ _); now injection E as <-.
      * destruct (parse_packet (firstn 256 data)) as [[r | ] | ex] eqn:Hp;
          try discriminate E.
        -- right. exists data, now, now', r.
           split; [ now left | ]. split; [ exact Hp | ].
           injection E as <-. apply drive_last_ok.
        -- left. now injection E as <-.
      * discriminate E.
    + right. exists data, now, now', r.
      split; [ now right | ]. split; assumption.
Qed.

End IterationEdges.

(** ** UTF-8 *)

Section Utf8.

Local Open Scope N_scope.

Ltac lia_div := zify; Z.to_euclidean_division_equations; lia.

Ltac decide_comparisons :=
  repeat match goal with
         | |- context [(?x <? ?y)%N] =>
           destruct (N.ltb_spec x y); cbn [andb orb negb];
           try (exfalso; lia_div)
         | |- context [(?x <=? ?y)%N] =>
           destruct (N.leb_spec x y); cbn [andb orb negb];
           try (exfalso; lia_div)
         | |- context [(?x =? ?y)%N] =>
           destruct (N.eqb_spec x y); cbn [andb orb negb];
           try (exfalso; lia_div)
         end.

(** The bytes of one encoded character decode to that character. *)
Lemma decode_encoded_char (c : N) (rest : list byte) :
  unicode_scalar c ->
  utf8_decode_ignore (utf8_encode_char c ++ rest)
  = c :: utf8_decode_ignore rest.
Proof.
  intros [Hmax Hsur]. unfold utf8_encode_char.
  destruct (N.ltb_spec c 0x80) as [H1 | H1];
    [ | destruct (N.ltb_spec c 0x800) as [H2 | H2];
        [ | destruct (N.ltb_spec c 0x10000) as [H3 | H3] ] ];
    cbn [app utf8_decode_ignore];
    rewrite ?to_N_byte_of_N by lia_div;
    unfold is_continuation_byte;
    decide_comparisons;
    f_equal; rewrite ?N.shiftl_mul_pow2;
    change (2 ^ 6) with 64; change (2 ^ 12) with 4096;
    change (2 ^ 18) with 262144; lia_div.
Qed.

(** X25. UTF-8 round trip.  Text made of Unicode scalar values, encoded as
    the sender's [encode()] does, is decoded by the receiver to the same
    text: nothing is dropped and nothing is altered. *)
Theorem utf8_round_trip (t : str) :
  Forall unicode_scalar t -> utf8_decode_ignore (encode t) = t.
Proof.
  induction 1 as [ | c t Hc _ IH ]; [ reflexivity | ].
  unfold encode in *. cbn [flat_map].
  now rewrite (decode_encoded_char c _ Hc), IH.
Qed.

End Utf8.

(** ** Instances of the further properties *)

Lemma nonzero_button_is_released_witness :
  7 <> 0 /\ 2 <> 0
  /\ drive default_args fresh (7, 2, 40000, 65535) 3%Q 4%Q
     = drive default_args fresh (1, 1, 40000, 65535) 3%Q 4%Q.
Proof.
  assert (H1 : 7 <> 0) by discriminate.
  assert (H2 : 2 <> 0) by discriminate.
  split; [ exact H1 | ]. split; [ exact H2 | ].
  exact (nonzero_button_is_released default_args fresh 7 2 40000 65535
           3%Q 4%Q H1 H2).
Defined.


Lemma last_ok_provenance_witness :
  loop default_args fresh [timeout 1%Q; datagram packet_forward 3%Q 4%Q]
  = Running (drive default_args
               {| pi := pi fresh ++ safe_state_calls; last_ok := 0%Q |}
               (1, 1, 32768, 65535) 3%Q 4%Q)
  /\ (3%Q = last_ok fresh
      \/ exists data now now' r,
          In (datagram data now now')
             [timeout 1%Q; datagram packet_forward 3%Q 4%Q]
          /\ parse_packet (firstn 256 data) = Returned (Some r)
          /\ 3%Q = now).
Proof.
  assert (H : loop default_args fresh
                [timeout 1%Q; datagram packet_forward 3%Q 4%Q]
              = Running (drive default_args
                           {| pi := pi fresh ++ safe_state_calls;
                              last_ok := 0%Q |}
                           (1, 1, 32768, 65535) 3%Q 4%Q))
    by (vm_compute; reflexivity).
  split; [ exact H | ].
  exact (last_ok_provenance default_args _ fresh _ H).
Defined.

Lemma utf8_round_trip_witness :
  Forall unicode_scalar [0x41; 0xE9; 0x20AC; 0x1F600]%N
  /\ utf8_decode_ignore (encode [0x41; 0xE9; 0x20AC; 0x1F600]%N)
     = [0x41; 0xE9; 0x20AC; 0x1F600]%N.
Proof.
  assert (H : Forall unicode_scalar [0x41; 0xE9; 0x20AC; 0x1F600]%N)
    by (repeat constructor; lia).
  split; [ exact H | exact (utf8_round_trip _ H) ].
Defined.
